(** * townhall-games: the bingo core, the session, the codecs and the relay

    A shallow embedding of the TypeScript sources:
    - [Card]     src/core/bingo-card.ts      (BingoCard)
    - [Game]     src/core/bingo-game.ts      (BingoGame)
    - [Session]  src/core/session.ts         (Session)
    - [Json], [Protocol], [RelayProtocol]
                 src/server/protocol.ts, src/relay/relay-protocol.ts
    - [Relay]    src/relay/relay-handler.ts  (createRelayHandler)

    Conventions of the embedding.
    - Strings are Rocq strings; [String.prototype.trim] and
      [String.prototype.toLowerCase] are modelled on their ASCII part
      (ASCII white space, letters A-Z).
    - A thrown [Error] is the [Err] branch of [result]; no state is
      committed on that branch, as in the source (every [throw] happens
      before the first assignment of its method).
    - [Math.random()] is a stream [rnd : nat -> Q] of values in [0,1);
      the k-th call of a run reads [rnd k].  [randomUUID()] and
      [new Date()] are inputs of the operation that calls them. *)

From Stdlib Require Import ZArith QArith Qround Floats Permutation Sorted.
From stdpp Require Import base list strings gmap.

Open Scope string_scope.
Open Scope list_scope.
Open Scope nat_scope.

(** ** JavaScript string helpers *)
Module JsString.

(** ASCII white space recognised by [String.prototype.trim]. *)
Definition is_space (a : Ascii.ascii) : bool :=
  let n := Ascii.nat_of_ascii a in
  Nat.eqb n 32 || Nat.eqb n 9 || Nat.eqb n 10 || Nat.eqb n 11 || Nat.eqb n 12 || Nat.eqb n 13.

Fixpoint drop_spaces (l : list Ascii.ascii) : list Ascii.ascii :=
  match l with
  | [] => []
  | a :: l' => if is_space a then drop_spaces l' else l
  end.

(** [s.trim()] *)
Definition trim (s : string) : string :=
  String.string_of_list_ascii
    (rev (drop_spaces (rev (drop_spaces (String.list_ascii_of_string s))))).

Definition lower_ascii (a : Ascii.ascii) : Ascii.ascii :=
  let n := Ascii.nat_of_ascii a in
  if Nat.leb 65 n && Nat.leb n 90 then Ascii.ascii_of_nat (n + 32) else a.

(** [s.toLowerCase()] *)
Fixpoint toLowerCase (s : string) : string :=
  match s with
  | EmptyString => EmptyString
  | String a s' => String (lower_ascii a) (toLowerCase s')
  end.

End JsString.

(** Outcome of a method that may [throw]. *)
Inductive result (E A : Type) : Type :=
| Ok (a : A)
| Err (e : E).
Arguments Ok {E A} a.
Arguments Err {E A} e.

(** The [Error]s thrown by the core and the session. *)
Inductive error : Type :=
| WordListTooShort (got : nat)   (* "Word list must contain at least 24 unique words, got n" *)
| GameNotWaiting                 (* "Game can only be started from waiting status" *)
| RoundNotFinished               (* "Can only start a new round after the current round is finished" *)
| CardsBeforeStart               (* "Cannot generate cards before game starts" *)
| MarkBeforeStart                (* "Cannot mark words before game starts" *)
| BlankScreenName                (* "Screen name cannot be blank" *)
| ScreenNameTaken (name : string)(* "Screen name ... is already taken" *)
| NoPlayers                      (* "Cannot start game: at least 1 player required" *)
| NoGameForRound                 (* "No game to start a new round for" *)
| NoGameActive.                  (* "No game is active" *)

(** ** BingoCard *)
Module Card.
Import JsString.

Inductive direction : Type := TlBr | TrBl.

(** [WinPattern] *)
Inductive WinPattern : Type :=
| Horizontal (row : nat)
| Vertical (col : nat)
| Diagonal (d : direction)
| Corners.

Record BingoCard : Type := mkCard {
  id : string;
  playerId : string;
  grid : list (list string);
  marked : list (list bool)
}.

(** The cleaning loop of [generate] (bingo-card.ts) and of the [BingoGame]
    constructor (bingo-game.ts): the two loops are the same text.  [seen]
    is the [Set<string>] of lower-cased words already kept. *)
Fixpoint clean_loop (seen : gset string) (ws : list string) : list string :=
  match ws with
  | [] => []
  | word :: ws' =>
      let trimmed := trim word in
      if String.eqb trimmed "" then clean_loop seen ws'
      else
        let lower := toLowerCase trimmed in
        if bool_decide (lower ∈ seen) then clean_loop seen ws'
        else trimmed :: clean_loop ({[lower]} ∪ seen) ws'
  end.

Definition cleanWords (wordList : list string) : list string :=
  clean_loop ∅ wordList.

(** [Math.floor(Math.random() * (i + 1))] *)
Definition draw (r : Q) (i : nat) : nat :=
  Z.to_nat (Qfloor (r * inject_Z (Z.of_nat (S i)))).

(** [[shuffled[i], shuffled[j]] = [shuffled[j], shuffled[i]]]; both
    indices are in range on every call (see [draw_le]). *)
Definition swap (s : list string) (i j : nat) : list string :=
  match s !! i, s !! j with
  | Some si, Some sj => <[j:=si]> (<[i:=sj]> s)
  | _, _ => s
  end.

(** [for (let i = shuffled.length - 1; i > 0; i--)]: [k] counts the calls
    of [Math.random] made so far. *)
Fixpoint fy_loop (rnd : nat -> Q) (k i : nat) (s : list string) : list string :=
  match i with
  | 0 => s
  | S i' => fy_loop rnd (S k) i' (swap s i (draw (rnd k) i))
  end.

Definition shuffle (rnd : nat -> Q) (cleaned : list string) : list string :=
  fy_loop rnd 0 (length cleaned - 1) cleaned.

(** The row [r] of the grid: cell (2,2) is ["FREE"], the others take
    [selected[idx++]]. *)
Definition build_row (selected : list string) (r : nat) (idx : nat)
  : list string * nat :=
  fold_left
    (fun '(row, idx) c =>
       if Nat.eqb r 2 && Nat.eqb c 2 then (app row ["FREE"], idx)
       else (app row [default "" (selected !! idx)], S idx))
    (seq 0 5) ([], idx).

Definition build_grid (selected : list string) : list (list string) :=
  fst (fold_left
         (fun '(g, idx) r => let '(row, idx') := build_row selected r idx in
                             (app g [row], idx'))
         (seq 0 5) ([], 0)).

Definition initial_marked : list (list bool) :=
  map (fun r => map (fun c => Nat.eqb r 2 && Nat.eqb c 2) (seq 0 5)) (seq 0 5).

(** [BingoCard.generate(playerId, wordList)]; [uuid] is the value of
    [randomUUID()]. *)
Definition generate (rnd : nat -> Q) (uuid : string) (pid : string)
    (wordList : list string) : result error BingoCard :=
  let cleaned := cleanWords wordList in
  if length cleaned <? 24 then Err (WordListTooShort (length cleaned))
  else
    let selected := take 24 (shuffle rnd cleaned) in
    Ok (mkCard uuid pid (build_grid selected) initial_marked).

(** Cell reads [this.grid[r][c]] and [this.marked[r][c]].  Cards are only
    built by [generate], always 5x5; the defaults are never read there. *)
Definition cell (c : BingoCard) (r col : nat) : string :=
  default "" (grid c !! r ≫= (.!! col)).

Definition mk (c : BingoCard) (r col : nat) : bool :=
  default false (marked c !! r ≫= (.!! col)).

(** The first cell, row-major, whose lower-cased word is [normalized]. *)
Definition find_cell (c : BingoCard) (normalized : string) : option (nat * nat) :=
  find (fun '(r, col) => String.eqb (toLowerCase (cell c r col)) normalized)
       (list_prod (seq 0 5) (seq 0 5)).

(** [this.marked[r][c] = true] *)
Definition set_mark (c : BingoCard) (r col : nat) : BingoCard :=
  match marked c !! r with
  | Some row => mkCard (id c) (playerId c) (grid c) (<[r:=<[col:=true]> row]> (marked c))
  | None => c
  end.

(** [markWord(word)]: the new card and the returned boolean. *)
Definition markWord (c : BingoCard) (word : string) : BingoCard * bool :=
  let normalized := toLowerCase (trim word) in
  match find_cell c normalized with
  | Some (r, col) => (set_mark c r col, true)
  | None => (c, false)
  end.

Definition row_full (c : BingoCard) (r : nat) : bool :=
  mk c r 0 && mk c r 1 && mk c r 2 && mk c r 3 && mk c r 4.

Definition col_full (c : BingoCard) (col : nat) : bool :=
  mk c 0 col && mk c 1 col && mk c 2 col && mk c 3 col && mk c 4 col.

(** [getWinningPattern()] *)
Definition getWinningPattern (c : BingoCard) : option WinPattern :=
  match find (row_full c) (seq 0 5) with
  | Some r => Some (Horizontal r)
  | None =>
  match find (col_full c) (seq 0 5) with
  | Some col => Some (Vertical col)
  | None =>
  if mk c 0 0 && mk c 1 1 && mk c 2 2 && mk c 3 3 && mk c 4 4
  then Some (Diagonal TlBr) else
  if mk c 0 4 && mk c 1 3 && mk c 2 2 && mk c 3 1 && mk c 4 0
  then Some (Diagonal TrBl) else
  if mk c 0 0 && mk c 0 4 && mk c 4 0 && mk c 4 4 && mk c 2 2
  then Some Corners
  else None
  end
  end.

(** [hasWon()] *)
Definition hasWon (c : BingoCard) : bool :=
  match getWinningPattern c with Some _ => true | None => false end.

(** [markPosition(row, col)], called with integer coordinates. *)
Definition markPosition (c : BingoCard) (row col : Z) : BingoCard * bool :=
  if ((row <? 0) || (4 <? row) || (col <? 0) || (4 <? col))%Z then (c, false)
  else (set_mark c (Z.to_nat row) (Z.to_nat col), true).

End Card.

(** ** The winning patterns as the specification lists them *)
Module CardSpec.
Import Card.

(** The five cells of each of the 12 patterns. *)
Definition pattern_cells (p : WinPattern) : list (nat * nat) :=
  match p with
  | Horizontal r => map (fun col => (r, col)) (seq 0 5)
  | Vertical col => map (fun r => (r, col)) (seq 0 5)
  | Diagonal TlBr => [(0, 0); (1, 1); (2, 2); (3, 3); (4, 4)]
  | Diagonal TrBl => [(0, 4); (1, 3); (2, 2); (3, 1); (4, 0)]
  | Corners => [(0, 0); (0, 4); (4, 0); (4, 4); (2, 2)]
  end.

(** Rows 0..4, columns 0..4, main diagonal, anti-diagonal, corners. *)
Definition scan_order : list WinPattern :=
  map Horizontal (seq 0 5) ++ map Vertical (seq 0 5)
  ++ [Diagonal TlBr; Diagonal TrBl; Corners].

Definition fully_marked (c : BingoCard) (p : WinPattern) : bool :=
  forallb (fun '(r, col) => mk c r col) (pattern_cells p).

(** The 24 cells other than the centre (2,2), row-major. *)
Definition non_center_words (c : BingoCard) : list string :=
  map (fun '(r, col) => cell c r col)
      (List.filter (fun '(r, col) => negb (Nat.eqb r 2 && Nat.eqb col 2))
                   (list_prod (seq 0 5) (seq 0 5))).

Definition five_by_five {A} (m : list (list A)) : Prop :=
  length m = 5 /\ Forall (fun row => length row = 5) m.

(** The mark grid of a fresh card: all false except the centre. *)
Definition fresh_marks : list (list bool) :=
  [[false; false; false; false; false];
   [false; false; false; false; false];
   [false; false; true;  false; false];
   [false; false; false; false; false];
   [false; false; false; false; false]].

(** A freshly generated card as the specification describes it: 24
    distinct non-FREE words of the cleaned list around a FREE centre. *)
Definition spec_fresh_card (cleaned : list string) (pid : string)
    (c : BingoCard) : Prop :=
  playerId c = pid /\ five_by_five (grid c) /\ cell c 2 2 = "FREE" /\
  length (non_center_words c) = 24 /\ NoDup (non_center_words c) /\
  (forall w, w ∈ non_center_words c -> w ∈ cleaned /\ w <> "FREE") /\
  marked c = fresh_marks.

(** The same card description without the [w <> "FREE"] part, and with the
    words distinct up to case. *)
Definition fresh_card (cleaned : list string) (pid : string)
    (c : BingoCard) : Prop :=
  playerId c = pid /\ five_by_five (grid c) /\ cell c 2 2 = "FREE" /\
  length (non_center_words c) = 24 /\
  NoDup (map JsString.toLowerCase (non_center_words c)) /\
  (forall w, w ∈ non_center_words c -> w ∈ cleaned) /\
  marked c = fresh_marks.

Definition random_stream_ok (rnd : nat -> Q) : Prop :=
  forall k, (0 <= rnd k /\ rnd k < 1)%Q.

(** Claim C2 as the specification states it. *)
Definition generate_claim : Prop :=
  forall (rnd : nat -> Q) (uuid pid : string) (wordList : list string),
    random_stream_ok rnd ->
    let cleaned := cleanWords wordList in
    (24 <= length cleaned ->
       exists c, generate rnd uuid pid wordList = Ok c /\ spec_fresh_card cleaned pid c) /\
    (length cleaned < 24 ->
       generate rnd uuid pid wordList = Err (WordListTooShort (length cleaned))).

(** A word list of exactly 24 words, one of which is spelled ["FREE"]. *)
Definition words_with_free : list string :=
  ["alpha"; "bravo"; "charlie"; "delta"; "echo"; "foxtrot"; "golf"; "hotel";
   "india"; "juliett"; "kilo"; "lima"; "mike"; "november"; "oscar"; "papa";
   "quebec"; "romeo"; "sierra"; "tango"; "uniform"; "victor"; "whiskey"; "FREE"].

(** A card with the NATO alphabet around the centre. *)
Definition sample_card : BingoCard :=
  mkCard "card-1" "player-1"
    [["alpha"; "bravo"; "charlie"; "delta"; "echo"];
     ["foxtrot"; "golf"; "hotel"; "india"; "juliett"];
     ["kilo"; "lima"; "FREE"; "mike"; "november"];
     ["oscar"; "papa"; "quebec"; "romeo"; "sierra"];
     ["tango"; "uniform"; "victor"; "whiskey"; "xray"]]
    fresh_marks.

End CardSpec.

(** ** BingoGame *)
Module Game.
Import Card.

Inductive GameStatus : Type := Waiting | Active | Finished.

Definition status_eqb (a b : GameStatus) : bool :=
  match a, b with
  | Waiting, Waiting | Active, Active | Finished, Finished => true
  | _, _ => false
  end.

(** [Winner]; [timestamp] is the value of [new Date()]. *)
Record Winner : Type := mkWinner {
  w_playerId : string;
  w_playerName : string;
  w_pattern : WinPattern;
  w_roundNumber : nat;
  w_timestamp : Z;
  w_points : nat
}.

(** [MarkResult]; the optional fields are [option]s. *)
Record MarkResult : Type := mkMarkResult {
  success : bool;
  bingo : bool;
  pattern : option WinPattern;
  roundOver : bool;
  winnerId : option string;
  winnerName : option string
}.

Record BingoGame : Type := mkGame {
  sessionId : string;
  wordList : list string;
  status : GameStatus;
  currentRound : nat;
  cards : gmap string BingoCard;
  currentWinner : option Winner;
  roundWinners : list Winner
}.

(** [new BingoGame(sessionId, wordList)] *)
Definition new (sid : string) (wl : list string) : result error BingoGame :=
  let cleaned := cleanWords wl in
  if length cleaned <? 24 then Err (WordListTooShort (length cleaned))
  else Ok (mkGame sid wl Waiting 0 ∅ None []).

(** [start()] *)
Definition start (g : BingoGame) : result error BingoGame :=
  match status g with
  | Waiting => Ok (mkGame (sessionId g) (wordList g) Active 1 (cards g)
                          (currentWinner g) (roundWinners g))
  | _ => Err GameNotWaiting
  end.

(** [startNewRound()] *)
Definition startNewRound (g : BingoGame) : result error BingoGame :=
  match status g with
  | Finished =>
      let history := match currentWinner g with
                     | Some w => roundWinners g ++ [w]
                     | None => roundWinners g
                     end in
      Ok (mkGame (sessionId g) (wordList g) Active (S (currentRound g)) ∅ None history)
  | _ => Err RoundNotFinished
  end.

(** [generateCardForPlayer(playerId)]: the game with the card stored, and
    the card. *)
Definition generateCardForPlayer (rnd : nat -> Q) (uuid : string)
    (pid : string) (g : BingoGame) : result error (BingoGame * BingoCard) :=
  match status g with
  | Waiting => Err CardsBeforeStart
  | _ =>
      match Card.generate rnd uuid pid (wordList g) with
      | Err e => Err e
      | Ok card =>
          Ok (mkGame (sessionId g) (wordList g) (status g) (currentRound g)
                     (<[pid:=card]> (cards g)) (currentWinner g) (roundWinners g),
              card)
      end
  end.

Definition rejected (roundOver : bool) : MarkResult :=
  mkMarkResult false false None roundOver None None.

(** [markWord(playerId, word)]; [now] is the value of [new Date()].  The
    card is marked in place, which is the store of the marked card into
    [cards]. *)
Definition markWord (now : Z) (pid word : string) (g : BingoGame)
  : result error (BingoGame * MarkResult) :=
  match status g with
  | Waiting => Err MarkBeforeStart
  | Finished => Ok (g, rejected true)
  | Active =>
      match cards g !! pid with
      | None => Ok (g, rejected false)
      | Some card =>
          let '(card', marked) := Card.markWord card word in
          if negb marked then Ok (g, rejected false)
          else
            let cards' := <[pid:=card']> (cards g) in
            let nowin := mkMarkResult true false None false None None in
            if hasWon card' then
              match getWinningPattern card' with
              | Some pat =>
                  let winner := mkWinner pid pid pat (currentRound g) now 100 in
                  Ok (mkGame (sessionId g) (wordList g) Finished (currentRound g)
                             cards' (Some winner) (roundWinners g),
                      mkMarkResult true true (Some pat) true (Some pid) (Some pid))
              | None => (* [hasWon()] is [getWinningPattern() !== null] *)
                  Ok (mkGame (sessionId g) (wordList g) (status g) (currentRound g)
                             cards' (currentWinner g) (roundWinners g), nowin)
              end
            else
              Ok (mkGame (sessionId g) (wordList g) (status g) (currentRound g)
                         cards' (currentWinner g) (roundWinners g), nowin)
      end
  end.

(** [getRoundWinners()]: the history, then the current round's winner. *)
Definition getRoundWinners (g : BingoGame) : list Winner :=
  match currentWinner g with
  | Some w => roundWinners g ++ [w]
  | None => roundWinners g
  end.

(** The public operations of a game, as a step on the game: a thrown error
    leaves the game as it was. *)
Inductive op : Type :=
| OpStart
| OpStartNewRound
| OpGenerateCard (rnd : nat -> Q) (uuid pid : string)
| OpMarkWord (now : Z) (pid word : string).

Definition run_op (o : op) (g : BingoGame) : BingoGame :=
  match o with
  | OpStart => match start g with Ok g' => g' | Err _ => g end
  | OpStartNewRound => match startNewRound g with Ok g' => g' | Err _ => g end
  | OpGenerateCard rnd uuid pid =>
      match generateCardForPlayer rnd uuid pid g with Ok (g', _) => g' | Err _ => g end
  | OpMarkWord now pid word =>
      match markWord now pid word g with Ok (g', _) => g' | Err _ => g end
  end.

(** Games reachable from a freshly constructed one. *)
Inductive reachable : BingoGame -> Prop :=
| reach_new sid wl g : new sid wl = Ok g -> reachable g
| reach_op o g : reachable g -> reachable (run_op o g).

(** The status moves the specification allows for an operation. *)
Definition allowed_move (o : op) (s s' : GameStatus) : Prop :=
  s' = s \/
  (o = OpStart /\ s = Waiting /\ s' = Active) \/
  ((exists now pid word, o = OpMarkWord now pid word) /\ s = Active /\ s' = Finished) \/
  (o = OpStartNewRound /\ s = Finished /\ s' = Active).

Definition winner_iff_finished (g : BingoGame) : Prop :=
  currentWinner g <> None <-> status g = Finished.

(** A sequence of [markWord] calls. *)
Fixpoint mark_all (g : BingoGame) (marks : list (Z * string * string))
  : BingoGame * list MarkResult :=
  match marks with
  | [] => (g, [])
  | (now, pid, word) :: rest =>
      match markWord now pid word g with
      | Ok (g', r) => let '(g'', rs) := mark_all g' rest in (g'', r :: rs)
      | Err _ => let '(g'', rs) := mark_all g rest in (g'', rs)
      end
  end.

End Game.

(** ** Session *)
Module Session.
Import JsString Card Game.

Record Player : Type := mkPlayer {
  p_id : string;
  screenName : string;
  joinedAt : Z
}.

Record Score : Type := mkScore {
  totalPoints : nat;
  roundsWon : nat;
  lastWinRound : option nat
}.

(** [GameEvent]; the cards carried by the events are the dealt cards. *)
Inductive GameEvent : Type :=
| GameStarted (roundNumber : nat) (playerId : string) (playerCard : BingoCard)
| PlayerWon (winnerId winnerName : string) (pattern : WinPattern)
    (roundNumber : nat) (timestamp : Z)
| NewRoundStarted (roundNumber : nat) (playerId : string) (playerCard : BingoCard)
| PlayerJoined (playerId screenName : string)
| PlayerLeft (playerId screenName : string).

(** How a listener call ends: it returns, or it throws. *)
Inductive outcome : Type := Returned | Threw.

(** [Map.prototype.set], [get] and [delete] on an insertion-ordered map. *)
Fixpoint js_map_set {V} (k : string) (v : V) (m : list (string * V)) : list (string * V) :=
  match m with
  | [] => [(k, v)]
  | (k', v') :: m' => if String.eqb k k' then (k, v) :: m' else (k', v') :: js_map_set k v m'
  end.

Fixpoint js_map_get {V} (k : string) (m : list (string * V)) : option V :=
  match m with
  | [] => None
  | (k', v) :: m' => if String.eqb k k' then Some v else js_map_get k m'
  end.

Definition js_map_delete {V} (k : string) (m : list (string * V)) : list (string * V) :=
  List.filter (fun '(k', _) => negb (String.eqb k k')) m.

(** The values of [randomUUID()], [Math.random()] and [new Date()] seen by
    one operation: the k-th call reads index k of the stream. *)
Record Entropy : Type := mkEntropy {
  uuid_at : nat -> string;
  rnd_at : nat -> Q;
  now : Z
}.

Section WithListeners.

(** The state listeners observe and change (sockets, logs, UI). *)
Variable W : Type.

(** [EventListener = (event: GameEvent) => void]: its effect on [W] and
    whether it returned or threw. *)
Definition EventListener : Type := GameEvent -> W -> W * outcome.

Record Session : Type := mkSession {
  s_id : string;
  s_wordList : list string;
  players : list (string * Player);
  game : option BingoGame;
  listeners : list EventListener;
  scores : gmap string Score
}.

(** The session, the listeners' world and the counts of [randomUUID] and
    [Math.random] calls made so far. *)
Record St : Type := mkSt {
  sess : Session;
  world : W;
  uuid_k : nat;
  rnd_k : nat
}.

(** A method call: mutations made before a [throw] stay, as in
    JavaScript. *)
Definition M (A : Type) : Type := Entropy -> St -> St * result error A.

Definition ret {A} (a : A) : M A := fun _ st => (st, Ok a).

Definition throw {A} (e : error) : M A := fun _ st => (st, Err e).

Definition bind {A B} (m : M A) (k : A -> M B) : M B :=
  fun env st =>
    match m env st with
    | (st', Ok a) => k a env st'
    | (st', Err e) => (st', Err e)
    end.

Local Notation "'let*' x ':=' m 'in' k" := (bind m (fun x => k))
  (at level 200, x name, m at level 100, k at level 200).

Definition gets {A} (f : Session -> A) : M A := fun _ st => (st, Ok (f (sess st))).

Definition set_sess (st : St) (s : Session) : St :=
  mkSt s (world st) (uuid_k st) (rnd_k st).

Definition with_players (s : Session) (ps : list (string * Player))
    (sc : gmap string Score) : Session :=
  mkSession (s_id s) (s_wordList s) ps (game s) (listeners s) sc.

Definition with_game (s : Session) (g : BingoGame) : Session :=
  mkSession (s_id s) (s_wordList s) (players s) (Some g) (listeners s) (scores s).

(** [this.players] and [this.scores] updated together. *)
Definition update_players (f : list (string * Player) -> list (string * Player))
    (h : gmap string Score -> gmap string Score) : M unit :=
  fun _ st => (set_sess st (with_players (sess st) (f (players (sess st)))
                                         (h (scores (sess st)))), Ok tt).

(** [randomUUID()] *)
Definition fresh_uuid : M string :=
  fun env st => (mkSt (sess st) (world st) (S (uuid_k st)) (rnd_k st),
                 Ok (uuid_at env (uuid_k st))).

(** [new Date()] *)
Definition date_now : M Z := fun env st => (st, Ok (now env)).

(** The listener loop of [emit]: [try { listener(event) } catch {}]. *)
Fixpoint emit_loop (ls : list EventListener) (ev : GameEvent) (w : W) : W :=
  match ls with
  | [] => w
  | l :: ls' => let '(w', _) := l ev w in emit_loop ls' ev w'
  end.

(** [private emit(event)] *)
Definition emit (ev : GameEvent) : M unit :=
  fun _ st => (mkSt (sess st) (emit_loop (listeners (sess st)) ev (world st))
                    (uuid_k st) (rnd_k st), Ok tt).

(** [this.game = new BingoGame(this.id, this.wordList)] *)
Definition new_game : M unit :=
  fun _ st =>
    match Game.new (s_id (sess st)) (s_wordList (sess st)) with
    | Ok g => (set_sess st (with_game (sess st) g), Ok tt)
    | Err e => (st, Err e)
    end.

(** A method call on [this.game], which updates the game in place.  It is
    only made where [this.game] is set. *)
Definition game_op {A} (f : BingoGame -> result error (BingoGame * A)) : M A :=
  fun _ st =>
    match game (sess st) with
    | None => (st, Err NoGameActive)
    | Some g =>
        match f g with
        | Ok (g', a) => (set_sess st (with_game (sess st) g'), Ok a)
        | Err e => (st, Err e)
        end
    end.

(** [this.game.generateCardForPlayer(playerId)]: one [randomUUID] call and
    [cleaned.length - 1] [Math.random] calls. *)
Definition deal_card (pid : string) : M BingoCard :=
  fun env st =>
    match game (sess st) with
    | None => (st, Err NoGameActive)
    | Some g =>
        match generateCardForPlayer (fun i => rnd_at env (rnd_k st + i))
                (uuid_at env (uuid_k st)) pid g with
        | Ok (g', card) =>
            (mkSt (with_game (sess st) g') (world st) (S (uuid_k st))
                  (rnd_k st + (length (cleanWords (wordList g)) - 1)), Ok card)
        | Err e => (st, Err e)
        end
    end.

Fixpoint for_each {A} (l : list A) (body : A -> M unit) : M unit :=
  match l with
  | [] => ret tt
  | x :: l' => bind (body x) (fun _ => for_each l' body)
  end.

(** [getCurrentRound()] *)
Definition current_round (s : Session) : nat :=
  match game s with None => 0 | Some g => currentRound g end.

(** [new Session(wordList)]; [sid] is the value of [randomUUID()]. *)
Definition new_session (sid : string) (wl : list string) : result error Session :=
  match Game.new "validate" wl with
  | Err e => Err e
  | Ok _ => Ok (mkSession sid wl [] None [] ∅)
  end.

(** [addPlayer(screenName)] *)
Definition addPlayer (name : string) : M Player :=
  let trimmed := trim name in
  if String.eqb trimmed "" then throw BlankScreenName else
  let lower := toLowerCase trimmed in
  let* ps := gets players in
  if existsb (fun '(_, p) => String.eqb (toLowerCase (screenName p)) lower) ps
  then throw (ScreenNameTaken trimmed) else
  let* pid := fresh_uuid in
  let* t := date_now in
  let player := mkPlayer pid trimmed t in
  let* _ := update_players (js_map_set pid player)
                           (insert pid (mkScore 0 0 None)) in
  let* _ := emit (PlayerJoined pid trimmed) in
  let* g := gets game in
  let* _ := match g with
            | Some g0 =>
                if status_eqb (status g0) Active then
                  let* card := deal_card pid in
                  let* rn := gets current_round in
                  emit (GameStarted rn pid card)
                else ret tt
            | None => ret tt
            end in
  ret player.

(** [removePlayer(playerId)] *)
Definition removePlayer (pid : string) : M unit :=
  let* ps := gets players in
  match js_map_get pid ps with
  | None => ret tt
  | Some p =>
      let* _ := update_players (js_map_delete pid) (delete pid) in
      emit (PlayerLeft pid (screenName p))
  end.

(** [startGame()] *)
Definition startGame : M unit :=
  let* ps := gets players in
  match ps with
  | [] => throw NoPlayers
  | _ :: _ =>
      let* _ := new_game in
      let* _ := game_op (fun g => match start g with
                                  | Ok g' => Ok (g', tt)
                                  | Err e => Err e
                                  end) in
      let* ps' := gets players in
      for_each ps' (fun '(pid, _) =>
        let* card := deal_card pid in
        emit (GameStarted 1 pid card))
  end.

(** [startNewRound()] *)
Definition startNewRound : M unit :=
  let* g := gets game in
  match g with
  | None => throw NoGameForRound
  | Some _ =>
      let* _ := game_op (fun g => match Game.startNewRound g with
                                  | Ok g' => Ok (g', tt)
                                  | Err e => Err e
                                  end) in
      let* ps := gets players in
      for_each ps (fun '(pid, _) =>
        let* card := deal_card pid in
        let* rn := gets current_round in
        emit (NewRoundStarted rn pid card))
  end.

Definition with_winnerName (r : MarkResult) (n : string) : MarkResult :=
  mkMarkResult (success r) (bingo r) (pattern r) (roundOver r) (winnerId r) (Some n).

Definition credit_win (rn : nat) (sc : Score) : Score :=
  mkScore (totalPoints sc + 100) (roundsWon sc + 1) (Some rn).

(** [markWord(playerId, word)]; [result.pattern!] is set on a bingo. *)
Definition markWord (pid word : string) : M MarkResult :=
  let* g := gets game in
  match g with
  | None => throw NoGameActive
  | Some _ =>
      let* t := date_now in
      let* result := game_op (Game.markWord t pid word) in
      match bingo result, winnerId result with
      | true, Some wid =>
          if String.eqb wid "" then ret result else
          let* ps := gets players in
          let winner := js_map_get wid ps in
          let result' := match winner with
                         | Some p => with_winnerName result (screenName p)
                         | None => result
                         end in
          let* rn := gets current_round in
          let* _ := update_players (fun ps0 => ps0) (fun sc => match sc !! wid with
                                                 | Some s0 => <[wid:=credit_win rn s0]> sc
                                                 | None => sc
                                                 end) in
          let* _ := emit (PlayerWon wid (match winner with
                                         | Some p => screenName p
                                         | None => wid
                                         end)
                                    (default Corners (pattern result)) rn t) in
          ret result'
      | _, _ => ret result
      end
  end.

(** [addEventListener(listener)] *)
Definition addEventListener (l : EventListener) : M unit :=
  fun _ st =>
    let s := sess st in
    (set_sess st (mkSession (s_id s) (s_wordList s) (players s) (game s)
                            (listeners s ++ [l]) (scores s)), Ok tt).

(** The public operations of a session. *)
Inductive sop : Type :=
| SAddPlayer (name : string)
| SRemovePlayer (pid : string)
| SStartGame
| SStartNewRound
| SMarkWord (pid word : string)
| SAddListener (l : EventListener).

Definition run_sop (o : sop) : M unit :=
  match o with
  | SAddPlayer n => bind (addPlayer n) (fun _ => ret tt)
  | SRemovePlayer pid => removePlayer pid
  | SStartGame => startGame
  | SStartNewRound => startNewRound
  | SMarkWord pid w => bind (markWord pid w) (fun _ => ret tt)
  | SAddListener l => addEventListener l
  end.

(** States reachable from [st0] by session operations. *)
Inductive sreach (st0 : St) : St -> Prop :=
| sreach_refl : sreach st0 st0
| sreach_step o env st : sreach st0 st -> sreach st0 (fst (run_sop o env st)).

(** A listener with the same effect that never throws. *)
Definition never_throws (l : EventListener) : EventListener :=
  fun ev w => (fst (l ev w), Returned).

Definition erase_throws (st : St) : St :=
  let s := sess st in
  mkSt (mkSession (s_id s) (s_wordList s) (players s) (game s)
                  (map never_throws (listeners s)) (scores s))
       (world st) (uuid_k st) (rnd_k st).

(** Running [m] gives the same result and the same state as it would if
    no listener threw. *)
Definition throw_oblivious {A} (m : M A) : Prop :=
  forall env st,
    m env (erase_throws st) =
    let '(st', r) := m env st in (erase_throws st', r).

End WithListeners.

Arguments ret {W A}. Arguments throw {W A}. Arguments bind {W A B}.
Arguments gets {W A}. Arguments fresh_uuid {W}. Arguments date_now {W}.
Arguments emit {W}. Arguments new_game {W}. Arguments game_op {W A}.
Arguments deal_card {W}. Arguments for_each {W A}. Arguments update_players {W}.

(** An entry of [getLeaderboard()]; [lastWinRound] is [undefined] for a
    player who never won. *)
Record LeaderboardEntry : Type := mkEntry {
  le_playerId : string;
  le_screenName : string;
  le_totalPoints : nat;
  le_roundsWon : nat;
  le_lastWinRound : option nat
}.

(** The entry pushed for [player]; a missing score reads as
    [{ totalPoints: 0, roundsWon: 0 }]. *)
Definition board_entry (sc : gmap string Score) (player : Player) : LeaderboardEntry :=
  let score := default (mkScore 0 0 None) (sc !! p_id player) in
  mkEntry (p_id player) (screenName player) (totalPoints score) (roundsWon score)
    (lastWinRound score).

(** One step of a stable insertion by [(a, b) => b.totalPoints - a.totalPoints]:
    [x] goes after every entry with at least its points. *)
Fixpoint insert_by_points (x : LeaderboardEntry) (l : list LeaderboardEntry)
  : list LeaderboardEntry :=
  match l with
  | [] => [x]
  | y :: l' => if le_totalPoints y <? le_totalPoints x then x :: y :: l'
               else y :: insert_by_points x l'
  end.

(** [board.sort((a, b) => b.totalPoints - a.totalPoints)]:
    [Array.prototype.sort] is stable, and a stable sort by a comparator
    has a single result, the one of insertion sort. *)
Definition sort_by_points (board : list LeaderboardEntry) : list LeaderboardEntry :=
  fold_left (fun acc x => insert_by_points x acc) board [].

(** [getLeaderboard()]: one entry per player, in [this.players] order, then
    sorted. *)
Definition getLeaderboard {W} (s : Session W) : list LeaderboardEntry :=
  sort_by_points (map (fun '(_, player) => board_entry (scores W s) player) (players W s)).

End Session.

(** ** JSON values and documents *)
Module Json.

#[local] Set Warnings "-register-all".

(** A JavaScript value as the serialization code sees it: objects are
    their own enumerable properties in insertion order. *)
Inductive jsval : Type :=
| JUndefined
| JNull
| JBool (b : bool)
| JNum (f : float)
| JStr (s : string)
| JArr (l : list jsval)
| JObj (props : list (string * jsval)).

(** A JSON document (the tree a JSON text spells). *)
Inductive json : Type :=
| JsonNull
| JsonBool (b : bool)
| JsonNum (f : float)
| JsonStr (s : string)
| JsonArr (l : list json)
| JsonObj (props : list (string * json)).

(** A string handed to [JSON.parse], modelled by the document it spells;
    [None] when it is not valid JSON. *)
Definition text := option json.

(** A finite number is written as the shortest decimal that reads back
    as the same number, except that [-0] is written ["0"]. *)
Definition json_number (f : float) : float :=
  if PrimFloat.eqb f PrimFloat.zero then PrimFloat.zero else f.

(** [JSON.stringify] on a value: non-finite numbers and [undefined] array
    elements become [null]; properties whose value is [undefined] are
    left out. *)
Fixpoint stringify_value (v : jsval) : json :=
  match v with
  | JUndefined | JNull => JsonNull
  | JBool b => JsonBool b
  | JNum f => if PrimFloat.is_finite f then JsonNum (json_number f) else JsonNull
  | JStr s => JsonStr s
  | JArr l =>
      JsonArr ((fix go (l : list jsval) : list json :=
                  match l with
                  | [] => []
                  | x :: r => stringify_value x :: go r
                  end) l)
  | JObj ps =>
      JsonObj ((fix go (ps : list (string * jsval)) : list (string * json) :=
                  match ps with
                  | [] => []
                  | (k, JUndefined) :: r => go r
                  | (k, x) :: r => (k, stringify_value x) :: go r
                  end) ps)
  end.

(** [JSON.stringify(v)] for a [v] that is not [undefined] (every call in
    the code passes an object literal). *)
Definition JSON_stringify (v : jsval) : text := Some (stringify_value v).

Fixpoint of_json (j : json) : jsval :=
  match j with
  | JsonNull => JNull
  | JsonBool b => JBool b
  | JsonNum f => JNum f
  | JsonStr s => JStr s
  | JsonArr l =>
      JArr ((fix go (l : list json) : list jsval :=
               match l with [] => [] | x :: r => of_json x :: go r end) l)
  | JsonObj ps =>
      JObj ((fix go (ps : list (string * json)) : list (string * jsval) :=
               match ps with [] => [] | (k, x) :: r => (k, of_json x) :: go r end) ps)
  end.

(** [JSON.parse(raw)]; [None] is the thrown [SyntaxError]. *)
Definition JSON_parse (raw : text) : option jsval := option_map of_json raw.

(** [typeof v === 'object' && v !== null] *)
Definition is_object (v : jsval) : bool :=
  match v with JObj _ | JArr _ => true | _ => false end.

(** [obj[k]] on a parsed value: the last binding of [k] wins, as in
    [JSON.parse]; none of the keys read below is an inherited property. *)
Definition get (v : jsval) (k : string) : jsval :=
  match v with
  | JObj ps => fold_left (fun acc '(k', x) => if String.eqb k k' then x else acc) ps JUndefined
  | _ => JUndefined
  end.

(** [typeof obj[k] === 'string'] together with the value read. *)
Definition str_field (v : jsval) (k : string) : option string :=
  match get v k with JStr s => Some s | _ => None end.

(** [Array.isArray(a) && a.every(x => typeof x === 'string')] with the
    strings read. *)
Fixpoint strings (l : list jsval) : option (list string) :=
  match l with
  | [] => Some []
  | JStr s :: r => option_map (cons s) (strings r)
  | _ :: _ => None
  end.

Definition str_array_field (v : jsval) (k : string) : option (list string) :=
  match get v k with JArr l => strings l | _ => None end.

(** Deep equality in the manner of Jest's [toEqual]: properties holding
    [undefined] count as absent and numbers compare with [Object.is]
    (Leibniz equality of floats). Key order is compared as well; every
    pair compared below lists its keys in the same order. *)
Fixpoint strip_undefined (v : jsval) : jsval :=
  match v with
  | JArr l =>
      JArr ((fix go (l : list jsval) : list jsval :=
               match l with [] => [] | x :: r => strip_undefined x :: go r end) l)
  | JObj ps =>
      JObj ((fix go (ps : list (string * jsval)) : list (string * jsval) :=
               match ps with
               | [] => []
               | (k, JUndefined) :: r => go r
               | (k, x) :: r => (k, strip_undefined x) :: go r
               end) ps)
  | _ => v
  end.

Definition deep_equal (a b : jsval) : Prop := strip_undefined a = strip_undefined b.

(** A number that JSON writes back as itself: finite, and not [-0]. *)
Definition num_ok (f : float) : Prop :=
  PrimFloat.is_finite f = true /\ (PrimFloat.eqb f PrimFloat.zero = true -> f = PrimFloat.zero).

(** Values that survive [JSON.stringify] then [JSON.parse] up to
    [deep_equal]: not [undefined] (except as a property value), and every
    number is [num_ok]. *)
Fixpoint json_safe (v : jsval) : Prop :=
  match v with
  | JUndefined => False
  | JNum f => num_ok f
  | JArr l =>
      (fix go (l : list jsval) : Prop :=
         match l with [] => True | x :: r => json_safe x /\ go r end) l
  | JObj ps =>
      (fix go (ps : list (string * jsval)) : Prop :=
         match ps with
         | [] => True
         | (_, JUndefined) :: r => go r
         | (_, x) :: r => json_safe x /\ go r
         end) ps
  | _ => True
  end.

(** Induction over [jsval] through the lists it nests. *)
Section JsvalInd.
Variable P : jsval -> Prop.
Hypothesis HUndefined : P JUndefined.
Hypothesis HNull : P JNull.
Hypothesis HBool : forall b, P (JBool b).
Hypothesis HNum : forall f, P (JNum f).
Hypothesis HStr : forall s, P (JStr s).
Hypothesis HArr : forall l, Forall P l -> P (JArr l).
Hypothesis HObj : forall ps, Forall (fun kx => P (snd kx)) ps -> P (JObj ps).

Fixpoint jsval_ind' (v : jsval) : P v :=
  match v with
  | JUndefined => HUndefined
  | JNull => HNull
  | JBool b => HBool b
  | JNum f => HNum f
  | JStr s => HStr s
  | JArr l =>
      HArr l ((fix go (l : list jsval) : Forall P l :=
                 match l with
                 | [] => List.Forall_nil _
                 | x :: r => @List.Forall_cons _ P x r (jsval_ind' x) (go r)
                 end) l)
  | JObj ps =>
      HObj ps ((fix go (ps : list (string * jsval)) : Forall (fun kx => P (snd kx)) ps :=
                  match ps with
                  | [] => List.Forall_nil _
                  | kx :: r => @List.Forall_cons _ _ kx r (jsval_ind' (snd kx)) (go r)
                  end) ps)
  end.
End JsvalInd.

End Json.

(** ** The relay envelope protocol ([relay-protocol.ts]) *)
Module RelayProtocol.
Import Json.

(** [RelayMessage] *)
Inductive RelayMessage : Type :=
| AdminRegister (sessionId secret : string)
| AdminRegistered (sessionId : string)
| AdminError (message : string)
| PlayerConnected (connectionId : string)
| PlayerDisconnected (connectionId : string)
| PlayerRoster (connections : list string)
| Upstream (connectionId command : string)
| Downstream (target event : string)
| Broadcast (event : string).

(** The object literal of each variant, fields in declaration order. *)
Definition relay_to_js (m : RelayMessage) : jsval :=
  match m with
  | AdminRegister sid sec =>
      JObj [("envelope", JStr "admin_register"); ("sessionId", JStr sid); ("secret", JStr sec)]
  | AdminRegistered sid =>
      JObj [("envelope", JStr "admin_registered"); ("sessionId", JStr sid)]
  | AdminError msg => JObj [("envelope", JStr "admin_error"); ("message", JStr msg)]
  | PlayerConnected cid => JObj [("envelope", JStr "player_connected"); ("connectionId", JStr cid)]
  | PlayerDisconnected cid =>
      JObj [("envelope", JStr "player_disconnected"); ("connectionId", JStr cid)]
  | PlayerRoster cs => JObj [("envelope", JStr "player_roster"); ("connections", JArr (map JStr cs))]
  | Upstream cid cmd =>
      JObj [("envelope", JStr "upstream"); ("connectionId", JStr cid); ("command", JStr cmd)]
  | Downstream t ev => JObj [("envelope", JStr "downstream"); ("target", JStr t); ("event", JStr ev)]
  | Broadcast ev => JObj [("envelope", JStr "broadcast"); ("event", JStr ev)]
  end.

(** [serializeRelayMessage(msg)] *)
Definition serializeRelayMessage (m : RelayMessage) : text := JSON_stringify (relay_to_js m).

(** The [switch (envelope)] of [parseRelayMessage], on the parsed object. *)
Definition parse_envelope (obj : jsval) (envelope : string) : option RelayMessage :=
  if String.eqb envelope "admin_register" then
    match str_field obj "sessionId", str_field obj "secret" with
    | Some sid, Some sec => Some (AdminRegister sid sec)
    | _, _ => None
    end
  else if String.eqb envelope "admin_registered" then
    option_map AdminRegistered (str_field obj "sessionId")
  else if String.eqb envelope "admin_error" then
    option_map AdminError (str_field obj "message")
  else if String.eqb envelope "upstream" then
    match str_field obj "connectionId", str_field obj "command" with
    | Some cid, Some cmd => Some (Upstream cid cmd)
    | _, _ => None
    end
  else if String.eqb envelope "downstream" then
    match str_field obj "target", str_field obj "event" with
    | Some t, Some ev => Some (Downstream t ev)
    | _, _ => None
    end
  else if String.eqb envelope "broadcast" then
    option_map Broadcast (str_field obj "event")
  else if String.eqb envelope "player_connected" then
    option_map PlayerConnected (str_field obj "connectionId")
  else if String.eqb envelope "player_disconnected" then
    option_map PlayerDisconnected (str_field obj "connectionId")
  else if String.eqb envelope "player_roster" then
    option_map PlayerRoster (str_array_field obj "connections")
  else None.

(** [parseRelayMessage(raw)] *)
Definition parseRelayMessage (raw : text) : option RelayMessage :=
  match JSON_parse raw with
  | None => None
  | Some parsed =>
      if is_object parsed then
        match get parsed "envelope" with
        | JStr e => parse_envelope parsed e
        | _ => None
        end
      else None
  end.

End RelayProtocol.

(** ** Client commands and server events ([protocol.ts]) *)
Module Protocol.
Import Json.

(** [Command] *)
Inductive Command : Type :=
| CreateSessionCommand (words : list string)
| StartGameCommand
| StartNewRoundCommand
| JoinCommand (screenName : string)
| MarkWordCommand (word : string).

Definition command_to_js (c : Command) : jsval :=
  match c with
  | CreateSessionCommand ws => JObj [("type", JStr "create_session"); ("words", JArr (map JStr ws))]
  | StartGameCommand => JObj [("type", JStr "start_game")]
  | StartNewRoundCommand => JObj [("type", JStr "start_new_round")]
  | JoinCommand n => JObj [("type", JStr "join"); ("screenName", JStr n)]
  | MarkWordCommand w => JObj [("type", JStr "mark_word"); ("word", JStr w)]
  end.

(** A client sends a command as [JSON.stringify(command)]. *)
Definition serializeCommand (c : Command) : text := JSON_stringify (command_to_js c).

(** [COMMAND_TYPES.has(t)] followed by the [switch (obj.type)]. *)
Definition parse_command_type (obj : jsval) (t : string) : option Command :=
  if String.eqb t "create_session" then
    option_map CreateSessionCommand (str_array_field obj "words")
  else if String.eqb t "start_game" then Some StartGameCommand
  else if String.eqb t "start_new_round" then Some StartNewRoundCommand
  else if String.eqb t "join" then option_map JoinCommand (str_field obj "screenName")
  else if String.eqb t "mark_word" then option_map MarkWordCommand (str_field obj "word")
  else None.

(** [parseCommand(raw)] *)
Definition parseCommand (raw : text) : option Command :=
  match JSON_parse raw with
  | None => None
  | Some parsed =>
      if is_object parsed then
        match get parsed "type" with
        | JStr t => parse_command_type parsed t
        | _ => None
        end
      else None
  end.

(** [WinPattern] as sent on the wire; its numbers are JavaScript numbers. *)
Inductive WinPatternJs : Type :=
| PHorizontal (row : float)
| PVertical (col : float)
| PDiagonal (d : Card.direction)
| PCorners.

(** [PlayerScore]; [lastWinRound] is optional. *)
Record PlayerScore : Type := mkPlayerScore {
  ps_playerId : string;
  ps_screenName : string;
  totalPoints : float;
  roundsWon : float;
  lastWinRound : option float
}.

(** [ServerEvent] *)
Inductive ServerEvent : Type :=
| SessionCreatedEvent (sessionId : string)
| JoinedEvent (playerId screenName gameStatus : string) (round : float)
| CardDealtEvent (roundNumber : float) (grid : list (list string)) (marked : list (list bool))
| PlayerJoinedEvent (playerId screenName : string) (playerCount : float)
| PlayerLeftEvent (playerId screenName : string) (playerCount : float)
| MarkResultEvent (success : bool) (word : string) (bingo roundOver : bool)
| PlayerWonEvent (winnerName : string) (pattern : WinPatternJs) (roundNumber : float)
| GameStatusEvent (status : string) (round : float)
| LeaderboardEvent (entries : list PlayerScore)
| ErrorEvent (message : string).

Definition pattern_to_js (p : WinPatternJs) : jsval :=
  match p with
  | PHorizontal r => JObj [("type", JStr "horizontal"); ("row", JNum r)]
  | PVertical c => JObj [("type", JStr "vertical"); ("col", JNum c)]
  | PDiagonal Card.TlBr => JObj [("type", JStr "diagonal"); ("direction", JStr "tl-br")]
  | PDiagonal Card.TrBl => JObj [("type", JStr "diagonal"); ("direction", JStr "tr-bl")]
  | PCorners => JObj [("type", JStr "corners")]
  end.

(** An absent [lastWinRound] is a property holding [undefined], as
    [getLeaderboard] builds it. *)
Definition score_to_js (s : PlayerScore) : jsval :=
  JObj [("playerId", JStr (ps_playerId s)); ("screenName", JStr (ps_screenName s));
        ("totalPoints", JNum (totalPoints s)); ("roundsWon", JNum (roundsWon s));
        ("lastWinRound", match lastWinRound s with Some r => JNum r | None => JUndefined end)].

Definition event_to_js (e : ServerEvent) : jsval :=
  match e with
  | SessionCreatedEvent sid => JObj [("type", JStr "session_created"); ("sessionId", JStr sid)]
  | JoinedEvent pid n st r =>
      JObj [("type", JStr "joined"); ("playerId", JStr pid); ("screenName", JStr n);
            ("gameStatus", JStr st); ("round", JNum r)]
  | CardDealtEvent rn g m =>
      JObj [("type", JStr "card_dealt"); ("roundNumber", JNum rn);
            ("grid", JArr (map (fun row => JArr (map JStr row)) g));
            ("marked", JArr (map (fun row => JArr (map JBool row)) m))]
  | PlayerJoinedEvent pid n c =>
      JObj [("type", JStr "player_joined"); ("playerId", JStr pid); ("screenName", JStr n);
            ("playerCount", JNum c)]
  | PlayerLeftEvent pid n c =>
      JObj [("type", JStr "player_left"); ("playerId", JStr pid); ("screenName", JStr n);
            ("playerCount", JNum c)]
  | MarkResultEvent ok w b ro =>
      JObj [("type", JStr "mark_result"); ("success", JBool ok); ("word", JStr w);
            ("bingo", JBool b); ("roundOver", JBool ro)]
  | PlayerWonEvent n p rn =>
      JObj [("type", JStr "player_won"); ("winnerName", JStr n); ("pattern", pattern_to_js p);
            ("roundNumber", JNum rn)]
  | GameStatusEvent st r => JObj [("type", JStr "game_status"); ("status", JStr st); ("round", JNum r)]
  | LeaderboardEvent es => JObj [("type", JStr "leaderboard"); ("entries", JArr (map score_to_js es))]
  | ErrorEvent msg => JObj [("type", JStr "error"); ("message", JStr msg)]
  end.

(** [serializeEvent(event)] *)
Definition serializeEvent (e : ServerEvent) : text := JSON_stringify (event_to_js e).

End Protocol.

(** ** The relay multiplexer ([createRelayHandler]) *)
Module Relay.
Import Json RelayProtocol.

(** A WebSocket, by identity. *)
Definition socket := nat.

(** What a [ws.send] puts on the wire: [JSON.stringify] of an envelope,
    [JSON.stringify] of another object, or a string passed through. *)
Inductive frame : Type :=
| Envelope (m : RelayMessage)
| Stringified (v : jsval)
| Raw (s : string).

(** The listeners [ws.on] attaches, with the variables they capture. *)
Inductive handler : Type :=
| AdminMessageHandler
| AdminCloseHandler (ws : socket)
| PlayerMessageHandler (connectionId : string)
| PlayerCloseHandler (ws : socket) (connectionId : string).

(** The closure's variables, together with the sockets' side: the
    listeners attached, the sockets closed, and the frames sent. *)
Record RelayState : Type := mkRelay {
  adminWs : option socket;
  adminRegistered : bool;
  playerConnections : list (string * socket);
  wsToConnectionId : list (socket * string);
  uuids : nat;
  handlers : list (socket * handler);
  closed : list socket;
  sent : list (socket * frame)
}.

Definition init : RelayState := mkRelay None false [] [] 0 [] [] [].

(** [ws.readyState === ws.OPEN] *)
Definition is_open (st : RelayState) (ws : socket) : bool :=
  negb (existsb (Nat.eqb ws) (closed st)).

(** [ws.send(f)] *)
Definition send (ws : socket) (f : frame) (st : RelayState) : RelayState :=
  mkRelay (adminWs st) (adminRegistered st) (playerConnections st) (wsToConnectionId st)
    (uuids st) (handlers st) (closed st) (sent st ++ [(ws, f)]).

(** [ws.on(...)] *)
Definition attach (ws : socket) (h : handler) (st : RelayState) : RelayState :=
  mkRelay (adminWs st) (adminRegistered st) (playerConnections st) (wsToConnectionId st)
    (uuids st) (handlers st ++ [(ws, h)]) (closed st) (sent st).

Definition set_admin (a : option socket) (reg : bool) (st : RelayState) : RelayState :=
  mkRelay a reg (playerConnections st) (wsToConnectionId st)
    (uuids st) (handlers st) (closed st) (sent st).

Definition set_players (pc : list (string * socket)) (wc : list (socket * string))
    (st : RelayState) : RelayState :=
  mkRelay (adminWs st) (adminRegistered st) pc wc (uuids st) (handlers st) (closed st) (sent st).

Definition next_uuid (st : RelayState) : RelayState :=
  mkRelay (adminWs st) (adminRegistered st) (playerConnections st) (wsToConnectionId st)
    (S (uuids st)) (handlers st) (closed st) (sent st).

Definition close_socket (ws : socket) (st : RelayState) : RelayState :=
  mkRelay (adminWs st) (adminRegistered st) (playerConnections st) (wsToConnectionId st)
    (uuids st) (handlers st) (ws :: closed st) (sent st).

(** [Map.prototype.set] and [delete] on [wsToConnectionId]. *)
Fixpoint ws_map_set (k : socket) (v : string) (m : list (socket * string)) : list (socket * string) :=
  match m with
  | [] => [(k, v)]
  | (k', v') :: m' => if Nat.eqb k k' then (k, v) :: m' else (k', v') :: ws_map_set k v m'
  end.

Definition ws_map_delete (k : socket) (m : list (socket * string)) : list (socket * string) :=
  List.filter (fun '(k', _) => negb (Nat.eqb k k')) m.

Section Handler.
(** [createRelayHandler(secret)]; [uuid_at k] is the k-th [randomUUID()]
    and [JSON_text] the document [JSON.parse] reads in a received string. *)
Variable secret : string.
Variable uuid_at : nat -> string.
Variable JSON_text : string -> text.

(** [sendToAdmin(msg)] *)
Definition sendToAdmin (msg : RelayMessage) (st : RelayState) : RelayState :=
  match adminWs st with
  | Some a => if is_open st a then send a (Envelope msg) st else st
  | None => st
  end.

(** [sendToPlayer(ws, data)]; [data] is a string received from the admin
    or the [JSON.stringify] of an object. *)
Definition sendToPlayer (ws : socket) (data : frame) (st : RelayState) : RelayState :=
  if is_open st ws then send ws data st else st.

Definition send_to_all (data : frame) (st : RelayState) : RelayState :=
  fold_left (fun st' ws => sendToPlayer ws data st') (map snd (playerConnections st)) st.

(** [handleAdminMessage(raw)] *)
Definition handleAdminMessage (raw : string) (st : RelayState) : RelayState :=
  match parseRelayMessage (JSON_text raw) with
  | None => st
  | Some msg =>
      if negb (adminRegistered st) then
        match msg with
        | AdminRegister sid sec =>
            if String.eqb sec secret then
              let st1 := sendToAdmin (AdminRegistered sid) (set_admin (adminWs st) true st) in
              match playerConnections st1 with
              | [] => st1
              | _ => sendToAdmin (PlayerRoster (map fst (playerConnections st1))) st1
              end
            else sendToAdmin (AdminError "Invalid secret") st
        | _ => sendToAdmin (AdminError "Must register first") st
        end
      else
        match msg with
        | Downstream target ev =>
            match Session.js_map_get target (playerConnections st) with
            | Some pws => sendToPlayer pws (Raw ev) st
            | None => st
            end
        | Broadcast ev => send_to_all (Raw ev) st
        | _ => st
        end
  end.

(** [handleAdminConnection(ws)] *)
Definition handleAdminConnection (ws : socket) (st : RelayState) : RelayState :=
  let accept :=
    attach ws (AdminCloseHandler ws)
      (attach ws AdminMessageHandler (set_admin (Some ws) false st)) in
  match adminWs st with
  | Some a =>
      if is_open st a then send ws (Envelope (AdminError "Admin already connected")) st
      else accept
  | None => accept
  end.

(** The error the relay sends a player when no admin is registered. *)
Definition session_unavailable : jsval :=
  JObj [("type", JStr "error");
        ("message", JStr "Game session not available yet. Please try again shortly.")].

Definition host_disconnected : jsval :=
  JObj [("type", JStr "error"); ("message", JStr "Game host disconnected. Reconnecting...")].

(** [handlePlayerConnection(ws)] *)
Definition handlePlayerConnection (ws : socket) (st : RelayState) : RelayState :=
  match adminWs st, adminRegistered st with
  | Some _, true =>
      let connectionId := uuid_at (uuids st) in
      let st1 := set_players (Session.js_map_set connectionId ws (playerConnections st))
                   (ws_map_set ws connectionId (wsToConnectionId st)) (next_uuid st) in
      let st2 := sendToAdmin (PlayerConnected connectionId) st1 in
      attach ws (PlayerCloseHandler ws connectionId)
        (attach ws (PlayerMessageHandler connectionId) st2)
  | _, _ => send ws (Stringified session_unavailable) st
  end.

(** A listener run on a ['message'] event with [data]. *)
Definition on_message (h : handler) (data : string) (st : RelayState) : RelayState :=
  match h with
  | AdminMessageHandler => handleAdminMessage data st
  | PlayerMessageHandler cid => sendToAdmin (Upstream cid data) st
  | _ => st
  end.

(** A listener run on a ['close'] event. *)
Definition on_close (h : handler) (st : RelayState) : RelayState :=
  match h with
  | AdminCloseHandler ws =>
      match adminWs st with
      | Some a =>
          if Nat.eqb ws a then
            send_to_all (Stringified host_disconnected) (set_admin None false st)
          else st
      | None => st
      end
  | PlayerCloseHandler ws cid =>
      sendToAdmin (PlayerDisconnected cid)
        (set_players (Session.js_map_delete cid (playerConnections st))
           (ws_map_delete ws (wsToConnectionId st)) st)
  | _ => st
  end.

(** An event from the sockets: a connection on the admin or the player
    endpoint, a frame received on a socket, or a socket closing. The
    listeners of a socket run in the order they were attached. *)
Inductive event : Type :=
| AdminConnects (ws : socket)
| PlayerConnects (ws : socket)
| Message (ws : socket) (data : string)
| Closes (ws : socket).

Definition listeners_of (ws : socket) (st : RelayState) : list handler :=
  map snd (List.filter (fun '(w, _) => Nat.eqb ws w) (handlers st)).

Definition step (ev : event) (st : RelayState) : RelayState :=
  match ev with
  | AdminConnects ws => handleAdminConnection ws st
  | PlayerConnects ws => handlePlayerConnection ws st
  | Message ws data =>
      if is_open st ws
      then fold_left (fun st' h => on_message h data st') (listeners_of ws st) st
      else st
  | Closes ws =>
      if is_open st ws
      then fold_left (fun st' h => on_close h st') (listeners_of ws st) (close_socket ws st)
      else st
  end.

Definition run (evs : list event) (st : RelayState) : RelayState :=
  fold_left (fun st' ev => step ev st') evs st.

End Handler.

(** [cid] is in the player registry, or was announced to an admin in a
    [player_connected] or [player_roster] envelope. *)
Definition mentions (cid : string) (st : RelayState) : Prop :=
  In cid (map fst (playerConnections st)) \/
  (exists a, In (a, Envelope (PlayerConnected cid)) (sent st)) \/
  (exists a cs, In (a, Envelope (PlayerRoster cs)) (sent st) /\ In cid cs).

(** Frames that announce connection ids to an admin. *)
Definition announces (f : frame) : bool :=
  match f with
  | Envelope (PlayerConnected _) | Envelope (PlayerRoster _) => true
  | _ => false
  end.

Definition keeps (g : RelayState -> RelayState) : Prop :=
  forall cid st, mentions cid (g st) -> mentions cid st.

End Relay.

(** ** Round trips through JSON *)
Module ProtocolSpec.
Import Json RelayProtocol Protocol.

(** Every relay envelope, command and event reads back from its JSON
    (events up to [deep_equal], with [JSON.parse] on the client). *)
Definition roundtrip_claim : Prop :=
  (forall m, parseRelayMessage (serializeRelayMessage m) = Some m) /\
  (forall c, parseCommand (serializeCommand c) = Some c) /\
  (forall e, exists v, JSON_parse (serializeEvent e) = Some v /\ deep_equal v (event_to_js e)).

Definition pattern_numbers_ok (p : WinPatternJs) : Prop :=
  match p with
  | PHorizontal r => num_ok r
  | PVertical c => num_ok c
  | _ => True
  end.

Definition score_numbers_ok (s : PlayerScore) : Prop :=
  num_ok (totalPoints s) /\ num_ok (roundsWon s) /\
  match lastWinRound s with Some r => num_ok r | None => True end.

(** Every number an event carries is finite and not [-0]. *)
Definition event_numbers_ok (e : ServerEvent) : Prop :=
  match e with
  | JoinedEvent _ _ _ r => num_ok r
  | CardDealtEvent rn _ _ => num_ok rn
  | PlayerJoinedEvent _ _ c | PlayerLeftEvent _ _ c => num_ok c
  | PlayerWonEvent _ p rn => pattern_numbers_ok p /\ num_ok rn
  | GameStatusEvent _ r => num_ok r
  | LeaderboardEvent es => Forall score_numbers_ok es
  | _ => True
  end.

(** A value with each number as the amended C6 says JSON gives it back:
    [NaN], [Infinity] and [-Infinity] become [null], [-0] becomes [0],
    every other number and every other value is kept. *)
Fixpoint json_numbers (v : jsval) : jsval :=
  match v with
  | JNum f =>
      if PrimFloat.is_finite f then
        (if PrimFloat.eqb f PrimFloat.zero then JNum PrimFloat.zero else JNum f)
      else JNull
  | JArr l =>
      JArr ((fix go (l : list jsval) : list jsval :=
               match l with [] => [] | x :: r => json_numbers x :: go r end) l)
  | JObj ps =>
      JObj ((fix go (ps : list (string * jsval)) : list (string * jsval) :=
               match ps with [] => [] | (k, x) :: r => (k, json_numbers x) :: go r end) ps)
  | _ => v
  end.

(** No [undefined] where [JSON.stringify] would not drop it: not the
    value itself and no array element (a property may hold it). *)
Fixpoint no_undefined_elems (v : jsval) : Prop :=
  match v with
  | JUndefined => False
  | JArr l =>
      (fix go (l : list jsval) : Prop :=
         match l with [] => True | x :: r => no_undefined_elems x /\ go r end) l
  | JObj ps =>
      (fix go (ps : list (string * jsval)) : Prop :=
         match ps with
         | [] => True
         | (_, JUndefined) :: r => go r
         | (_, x) :: r => no_undefined_elems x /\ go r
         end) ps
  | _ => True
  end.

(** The event with a [NaN] round number. *)
Definition nan_status_event : ServerEvent := GameStatusEvent "active" PrimFloat.nan.

End ProtocolSpec.

(** ** The session's word list *)
Module SessionSpec.
Import Card Game Session.

Section WithWorld.
Variable W : Type.

(** The session keeps the word list [wl] it was built with, its game (if
    any) was built over [wl], and [wl] cleans to at least 24 words. *)
Definition wordlist_inv (wl : list string) (st : St W) : Prop :=
  s_wordList W (sess W st) = wl /\
  (forall g, game W (sess W st) = Some g -> Game.wordList g = wl) /\
  24 <= length (cleanWords wl).

(** [m] keeps [wordlist_inv] and never throws the word-list error. *)
Definition wordlist_safe {A} (wl : list string) (m : M W A) : Prop :=
  forall env st, wordlist_inv wl st ->
    wordlist_inv wl (fst (m env st)) /\
    forall n, snd (m env st) <> Err (WordListTooShort n).

End WithWorld.
End SessionSpec.

(** ** Properties of the players, scores, rounds and messages *)
Module ExtraSpec.
Import JsString Card Game Session Json.

Section WithWorld.
Variable W : Type.

(** Each player is stored under its own id, has a non-blank screen name,
    and no two players' screen names are equal up to case. *)
Definition players_ok (s : Session W) : Prop :=
  Forall (fun '(k, p) => p_id p = k /\ screenName p <> "") (players W s) /\
  NoDup (map (fun '(_, p) => toLowerCase (screenName p)) (players W s)).

(** Exactly the players have a score, and each score is 100 points per
    round won, with a last winning round iff a round was won. *)
Definition scores_ok (s : Session W) : Prop :=
  (forall k, is_Some (scores W s !! k) <-> k ∈ map fst (players W s)) /\
  map_Forall (fun _ sc => totalPoints sc = 100 * roundsWon sc /\
                          (lastWinRound sc = None <-> roundsWon sc = 0)) (scores W s).

(** The two properties together. *)
Definition session_inv (s : Session W) : Prop := players_ok s /\ scores_ok s.

(** [m] leaves the players and the scores as they were. *)
Definition keeps_roster {A} (m : M W A) : Prop :=
  forall env st, players W (sess W (fst (m env st))) = players W (sess W st) /\
                 scores W (sess W (fst (m env st))) = scores W (sess W st).

(** [m] keeps [session_inv]. *)
Definition keeps_inv {A} (m : M W A) : Prop :=
  forall env st, session_inv (sess W st) -> session_inv (sess W (fst (m env st))).

End WithWorld.

(** The rounds decided so far: all of them when the current round is
    finished, the ones before it otherwise. *)
Definition completed_rounds (g : BingoGame) : nat :=
  match status g with
  | Finished => currentRound g
  | _ => currentRound g - 1
  end.

(** The round bookkeeping kept by every operation. *)
Definition rounds_inv (g : BingoGame) : Prop :=
  (status g = Waiting -> currentRound g = 0) /\
  (status g <> Waiting -> 1 <= currentRound g) /\
  (currentWinner g = None <-> status g <> Finished) /\
  (forall w, currentWinner g = Some w -> w_roundNumber w = currentRound g) /\
  map w_roundNumber (roundWinners g) = seq 1 (currentRound g - 1).

(** Leaderboard entries ordered by points, highest first. *)
Definition by_points (a b : LeaderboardEntry) : Prop := le_totalPoints b <= le_totalPoints a.

(** The entries with [n] points, in order. *)
Definition with_points (n : nat) (l : list LeaderboardEntry) : list LeaderboardEntry :=
  List.filter (fun e => Nat.eqb (le_totalPoints e) n) l.

(** The relay state [st] with [s] as the frames sent so far. *)
Definition with_sent (st : Relay.RelayState) (s : list (Relay.socket * Relay.frame))
  : Relay.RelayState :=
  Relay.mkRelay (Relay.adminWs st) (Relay.adminRegistered st) (Relay.playerConnections st)
    (Relay.wsToConnectionId st) (Relay.uuids st) (Relay.handlers st) (Relay.closed st) s.

(** The properties of an object literal. *)
Definition obj_props (v : jsval) : list (string * jsval) :=
  match v with JObj ps => ps | _ => [] end.

End ExtraSpec.

(** ** Concrete inputs *)
Module Samples.
Import Card Game.

Definition fresh_game : BingoGame :=
  mkGame "session-1" CardSpec.words_with_free Waiting 0 ∅ None [].

(** A game whose round 1 was won by [player-1] with row 0. *)
Definition finished_game : BingoGame :=
  mkGame "session-1" CardSpec.words_with_free Finished 1
    (<["player-1":=CardSpec.sample_card]> ∅)
    (Some (mkWinner "player-1" "player-1" (Horizontal 0) 1 0 100)) [].

(** The card [sample_card] with row 0 fully marked. *)
Definition won_sample : BingoCard :=
  mkCard "card-1" "player-1" (grid CardSpec.sample_card)
    [[true; true; true; true; true];
     [false; false; false; false; false];
     [false; false; true;  false; false];
     [false; false; false; false; false];
     [false; false; false; false; false]].

End Samples.

(** * Proofs *)

Module CardProofs.
Import Card CardSpec.

Lemma andb5_assoc (a b c d e : bool) :
  a && b && c && d && e = a && (b && (c && (d && (e && true)))).
Proof. destruct a, b, c, d, e; reflexivity. Qed.

Lemma row_full_spec (c : BingoCard) (r : nat) :
  row_full c r = fully_marked c (Horizontal r).
Proof. unfold row_full, fully_marked; simpl. apply andb5_assoc. Qed.

Lemma col_full_spec (c : BingoCard) (col : nat) :
  col_full c col = fully_marked c (Vertical col).
Proof. unfold col_full, fully_marked; simpl. apply andb5_assoc. Qed.

Lemma diag_tlbr_spec (c : BingoCard) :
  mk c 0 0 && mk c 1 1 && mk c 2 2 && mk c 3 3 && mk c 4 4 =
  fully_marked c (Diagonal TlBr).
Proof. unfold fully_marked; simpl. apply andb5_assoc. Qed.

Lemma diag_trbl_spec (c : BingoCard) :
  mk c 0 4 && mk c 1 3 && mk c 2 2 && mk c 3 1 && mk c 4 0 =
  fully_marked c (Diagonal TrBl).
Proof. unfold fully_marked; simpl. apply andb5_assoc. Qed.

Lemma corners_spec (c : BingoCard) :
  mk c 0 0 && mk c 0 4 && mk c 4 0 && mk c 4 4 && mk c 2 2 =
  fully_marked c Corners.
Proof. unfold fully_marked; simpl. apply andb5_assoc. Qed.

(** C1: [getWinningPattern] returns the first fully marked pattern in the
    fixed scan order rows 0..4, columns 0..4, main diagonal, anti-diagonal,
    four corners plus centre, or none; [hasWon] holds iff one of the 12
    patterns is fully marked. *)
Theorem getWinningPattern_first_in_scan_order (c : BingoCard) :
  getWinningPattern c = find (fully_marked c) scan_order /\
  (hasWon c = true <-> exists p, p ∈ scan_order /\ fully_marked c p = true).
Proof.
  assert (Hfirst : getWinningPattern c = find (fully_marked c) scan_order).
  { unfold getWinningPattern, scan_order.
    rewrite diag_tlbr_spec, diag_trbl_spec, corners_spec.
    cbn [find seq map app].
    rewrite !row_full_spec, !col_full_spec.
    repeat match goal with
           | |- context [if ?b then _ else _] => destruct b; [reflexivity|]
           end.
    reflexivity. }
  split; [exact Hfirst|].
  unfold hasWon. rewrite Hfirst. split.
  - destruct (find (fully_marked c) scan_order) as [p|] eqn:Hf; [|discriminate].
    intros _. apply find_some in Hf as [Hin Hp].
    exists p. split; [apply list_elem_of_In; exact Hin | exact Hp].
  - intros (p & Hin & Hp).
    destruct (find (fully_marked c) scan_order) eqn:Hf; [reflexivity|].
    apply list_elem_of_In in Hin.
    pose proof (find_none _ _ Hf p Hin) as Hn. congruence.
Qed.

End CardProofs.

Module MarkProofs.
Import Card CardSpec JsString.

Lemma find_cell_set_mark (c : BingoCard) (r col : nat) (w : string) :
  find_cell (set_mark c r col) w = find_cell c w.
Proof. unfold set_mark. destruct (marked c !! r); reflexivity. Qed.

Lemma set_mark_twice (c : BingoCard) (r col : nat) :
  set_mark (set_mark c r col) r col = set_mark c r col.
Proof.
  unfold set_mark. destruct (marked c !! r) as [row|] eqn:Hr; simpl; [|rewrite Hr; reflexivity].
  rewrite list_lookup_insert_eq by (eapply lookup_lt_Some; exact Hr).
  rewrite list_insert_insert_eq, list_insert_insert_eq. reflexivity.
Qed.

(** C3: marking the same word a second time changes nothing and returns
    what the first call returned (true when the word matched a cell); a
    word that matches no cell of the grid returns false and leaves the card
    unchanged. *)
Theorem markWord_idempotent_and_absent (c : BingoCard) (w : string) :
  markWord (fst (markWord c w)) w = markWord c w /\
  ((forall r col, r < 5 -> col < 5 ->
      toLowerCase (cell c r col) <> toLowerCase (trim w)) ->
   markWord c w = (c, false)).
Proof.
  split.
  - unfold markWord. destruct (find_cell c (toLowerCase (trim w))) as [[r col]|] eqn:Hf;
      simpl; rewrite ?find_cell_set_mark, Hf; [rewrite set_mark_twice|]; reflexivity.
  - intros Hnone. unfold markWord.
    destruct (find_cell c (toLowerCase (trim w))) as [[r col]|] eqn:Hf; [|reflexivity].
    exfalso. unfold find_cell in Hf. apply find_some in Hf as [Hin Heq].
    apply in_prod_iff in Hin as [Hr Hc]. apply in_seq in Hr, Hc.
    apply String.eqb_eq in Heq. apply (Hnone r col); [lia|lia|exact Heq].
Qed.

Lemma markWord_idempotent_and_absent_witness :
  (forall r col, r < 5 -> col < 5 ->
     toLowerCase (cell sample_card r col) <> toLowerCase (trim " Zulu ")) /\
  markWord sample_card " Zulu " = (sample_card, false).
Proof.
  assert (Habs : forall r col, r < 5 -> col < 5 ->
     toLowerCase (cell sample_card r col) <> toLowerCase (trim " Zulu ")).
  { intros r col Hr Hc.
    do 5 (destruct r as [|r]; [do 5 (destruct col as [|col]; [vm_compute; discriminate|]); lia|]).
    lia. }
  split; [exact Habs|].
  exact (proj2 (markWord_idempotent_and_absent sample_card " Zulu ") Habs).
Defined.

End MarkProofs.

Module GenerateProofs.
Import Card CardSpec JsString.

Lemma clean_loop_spec (seen : gset string) (ws : list string) :
  NoDup (map toLowerCase (clean_loop seen ws)) /\
  (forall x, x ∈ clean_loop seen ws -> toLowerCase x ∉ seen).
Proof.
  revert seen. induction ws as [|w ws IH]; intros seen; simpl.
  - split; [constructor | intros x Hx; inversion Hx].
  - destruct (String.eqb (trim w) "") ; [apply IH|].
    destruct (bool_decide (toLowerCase (trim w) ∈ seen)) eqn:Hseen; [apply IH|].
    apply bool_decide_eq_false in Hseen.
    destruct (IH ({[toLowerCase (trim w)]} ∪ seen)) as [Hnd Hnot].
    split.
    + simpl. constructor; [|exact Hnd].
      intros Hin. apply list_elem_of_In, in_map_iff in Hin as (x & Hx & Hin).
      apply list_elem_of_In in Hin. apply Hnot in Hin. rewrite Hx in Hin. set_solver.
    + intros x Hx. apply elem_of_cons in Hx as [->|Hx]; [exact Hseen|].
      apply Hnot in Hx. set_solver.
Qed.

Lemma cleanWords_NoDup_lower (ws : list string) :
  NoDup (map toLowerCase (cleanWords ws)).
Proof. apply clean_loop_spec. Qed.

Lemma count_occ_insert (l : list string) (i : nat) (a y x : string) :
  l !! i = Some a ->
  count_occ String.string_dec (<[i:=y]> l) x + (if String.string_dec a x then 1 else 0) =
  count_occ String.string_dec l x + (if String.string_dec y x then 1 else 0).
Proof.
  revert i. induction l as [|b l IH]; intros [|i] Hl; simpl in *; try discriminate.
  - injection Hl as ->. destruct (String.string_dec y x), (String.string_dec a x); lia.
  - specialize (IH i Hl). destruct (String.string_dec b x); lia.
Qed.

Lemma swap_perm (s : list string) (i j : nat) : swap s i j ≡ₚ s.
Proof.
  unfold swap. destruct (s !! i) as [si|] eqn:Hi; [|reflexivity].
  destruct (s !! j) as [sj|] eqn:Hj; [|reflexivity].
  assert (Hj' : <[i:=sj]> s !! j = Some sj).
  { destruct (decide (i = j)) as [->|Hne].
    - apply list_lookup_insert_eq. eapply lookup_lt_Some; exact Hj.
    - rewrite list_lookup_insert_ne by exact Hne. exact Hj. }
  apply (Permutation_count_occ String.string_dec). intros x.
  pose proof (count_occ_insert _ _ _ si x Hj') as E1.
  pose proof (count_occ_insert _ _ _ sj x Hi) as E2.
  destruct (String.string_dec si x), (String.string_dec sj x); lia.
Qed.

Lemma draw_le (r : Q) (i : nat) : (0 <= r)%Q -> (r < 1)%Q -> draw r i <= i.
Proof.
  intros _ Hr1. unfold draw.
  assert (Hfl : (Qfloor (r * inject_Z (Z.of_nat (S i))) < Z.of_nat (S i))%Z).
  { rewrite Zlt_Qlt. eapply Qle_lt_trans; [apply Qfloor_le|].
    rewrite <- (Qmult_1_l (inject_Z (Z.of_nat (S i)))) at 2.
    apply Qmult_lt_compat_r; [|exact Hr1].
    change (inject_Z 0 < inject_Z (Z.of_nat (S i)))%Q.
    rewrite <- Zlt_Qlt. lia. }
  lia.
Qed.

Lemma fy_loop_perm (rnd : nat -> Q) (k i : nat) (s : list string) :
  random_stream_ok rnd -> i < length s -> fy_loop rnd k i s ≡ₚ s.
Proof.
  intros Hrnd. revert k s. induction i as [|i IH]; intros k s Hi; simpl; [reflexivity|].
  rewrite IH.
  - apply swap_perm.
  - rewrite (Permutation_length (swap_perm _ _ _)). lia.
Qed.

Lemma shuffle_perm (rnd : nat -> Q) (l : list string) :
  random_stream_ok rnd -> 0 < length l -> shuffle rnd l ≡ₚ l.
Proof. intros Hrnd Hl. unfold shuffle. apply fy_loop_perm; [exact Hrnd | lia]. Qed.

Lemma build_grid_shape (l : list string) :
  length l = 24 ->
  let c := mkCard "" "" (build_grid l) [] in
  five_by_five (grid c) /\ cell c 2 2 = "FREE" /\ non_center_words c = l.
Proof.
  intros Hl. do 24 (destruct l as [|? l]; [simpl in *; lia|]).
  destruct l; [|simpl in *; lia].
  split; [|split; reflexivity].
  split; [reflexivity|]. repeat constructor.
Qed.

Lemma non_center_words_irrel (u p : string) (g : list (list string))
    (m : list (list bool)) :
  non_center_words (mkCard u p g m) = non_center_words (mkCard "" "" g []).
Proof. reflexivity. Qed.

End GenerateProofs.

Module GenerateClaims.
Import Card CardSpec JsString GenerateProofs.

(** C2 (as stated): refuted.  With a word list of 24 words one of which is
    ["FREE"], every shuffle keeps all 24 words, so a non-centre cell holds
    the word ["FREE"]: the grid does not hold 24 non-FREE words. *)
Lemma generate_claim_counterexample : ~ generate_claim.
Proof.
  intros H.
  destruct (H (fun _ => 0%Q) "card-1" "player-1" words_with_free) as [Hok _].
  { intros k. split; [apply Qle_refl | reflexivity]. }
  destruct Hok as (c & Hgen & Hspec).
  { vm_compute. lia. }
  vm_compute in Hgen. injection Hgen as <-.
  destruct Hspec as (_ & _ & _ & _ & _ & Hwords & _).
  destruct (Hwords "FREE") as [_ Hne]; [|exact (Hne eq_refl)].
  apply list_elem_of_In. vm_compute. do 22 right. left. reflexivity.
Qed.

(** C2 (amended): for a word list whose cleaned form (trim, drop empty,
    case-insensitive de-duplication keeping the first occurrence) has at
    least 24 words, [generate] returns a 5x5 card for [playerId] with
    ["FREE"] at (2,2), whose 24 other cells hold 24 words of the cleaned
    list, pairwise distinct even up to case (a list word spelled ["FREE"]
    may be among them), and whose marks are all false but (2,2); with
    fewer than 24 cleaned words it throws the word-list error. *)
Theorem generate_fresh_card (rnd : nat -> Q) (uuid pid : string)
    (wordList : list string) :
  random_stream_ok rnd ->
  let cleaned := cleanWords wordList in
  (24 <= length cleaned ->
     exists c, generate rnd uuid pid wordList = Ok c /\ fresh_card cleaned pid c) /\
  (length cleaned < 24 ->
     generate rnd uuid pid wordList = Err (WordListTooShort (length cleaned))).
Proof.
  intros Hrnd cleaned. unfold generate. fold cleaned. split.
  - intros Hlen. destruct (Nat.ltb_spec (length cleaned) 24) as [Hlt|_]; [lia|].
    eexists. split; [reflexivity|].
    pose proof (shuffle_perm rnd cleaned Hrnd ltac:(lia)) as Hperm.
    set (sh := shuffle rnd cleaned) in *.
    assert (Hsel : length (take 24 sh) = 24).
    { apply length_take_le. rewrite (Permutation_length Hperm). exact Hlen. }
    destruct (build_grid_shape (take 24 sh) Hsel) as (Hshape & Hfree & Hwords).
    unfold fresh_card. rewrite non_center_words_irrel, Hwords.
    split; [reflexivity|]. split; [exact Hshape|]. split; [exact Hfree|].
    split; [exact Hsel|]. split; [|split; [|reflexivity]].
    + rewrite <- firstn_map. eapply sublist_NoDup; [|apply sublist_take].
      assert (Hpm : map toLowerCase sh ≡ₚ map toLowerCase cleaned)
        by (apply Permutation_map, Hperm).
      rewrite Hpm. apply cleanWords_NoDup_lower.
    + intros w Hw. rewrite <- Hperm.
      eapply elem_of_sublist; [exact Hw | apply sublist_take].
  - intros Hlen. destruct (Nat.ltb_spec (length cleaned) 24) as [_|Hge]; [reflexivity|lia].
Qed.

Lemma generate_fresh_card_witness :
  random_stream_ok (fun _ => 0%Q) /\
  (let cleaned := cleanWords words_with_free in
   (24 <= length cleaned ->
      exists c, generate (fun _ => 0%Q) "card-1" "player-1" words_with_free = Ok c /\
                fresh_card cleaned "player-1" c) /\
   (length cleaned < 24 ->
      generate (fun _ => 0%Q) "card-1" "player-1" words_with_free =
      Err (WordListTooShort (length cleaned)))).
Proof.
  assert (Hrnd : random_stream_ok (fun _ => 0%Q)).
  { intros k. split; [apply Qle_refl | reflexivity]. }
  split; [exact Hrnd | apply (generate_fresh_card _ _ _ _ Hrnd)].
Defined.

End GenerateClaims.

Module GameProofs.
Import Card Game.

(** C4: once a game is [finished], every [markWord] call, for any player
    and word, returns [{success:false, bingo:false, roundOver:true}] and
    leaves the whole game (status, round, cards, winner, history)
    unchanged; so any sequence of later marks records no second winner. *)
Theorem markWord_finished_rejected (g : BingoGame) :
  status g = Finished ->
  (forall now pid word,
     markWord now pid word g =
     Ok (g, mkMarkResult false false None true None None)) /\
  (forall marks,
     mark_all g marks = (g, map (fun _ => mkMarkResult false false None true None None) marks)).
Proof.
  intros Hfin.
  assert (Hone : forall now pid word,
     markWord now pid word g = Ok (g, mkMarkResult false false None true None None)).
  { intros now pid word. unfold markWord. rewrite Hfin. reflexivity. }
  split; [exact Hone|].
  induction marks as [|[[now pid] word] marks IH]; simpl; [reflexivity|].
  rewrite Hone, IH. reflexivity.
Qed.

Lemma markWord_cases (now : Z) (pid word : string) (g g' : BingoGame) (r : MarkResult) :
  markWord now pid word g = Ok (g', r) ->
  status g = Active /\
  ((status g' = status g /\ currentWinner g' = currentWinner g) \/
   (status g' = Finished /\ currentWinner g' <> None)) \/
  (status g = Finished /\ g' = g).
Proof.
  intros Hm. unfold markWord in Hm. destruct (status g) eqn:Hs; try discriminate.
  - left. split; [reflexivity|].
    destruct (cards g !! pid) as [card|];
      [|injection Hm as <- _; left; rewrite Hs; auto].
    destruct (Card.markWord card word) as [card' marked].
    destruct marked; simpl in Hm; [|injection Hm as <- _; left; rewrite Hs; auto].
    destruct (hasWon card'); [destruct (getWinningPattern card')|];
      injection Hm as <- _; simpl.
    + right. split; [reflexivity|discriminate].
    + left. auto.
    + left. auto.
  - injection Hm as <- _. right. auto.
Qed.

Lemma generateCardForPlayer_keeps (rnd : nat -> Q) (uuid pid : string)
    (g g' : BingoGame) (c : BingoCard) :
  generateCardForPlayer rnd uuid pid g = Ok (g', c) ->
  status g' = status g /\ currentWinner g' = currentWinner g /\
  wordList g' = wordList g.
Proof.
  unfold generateCardForPlayer. destruct (status g); [discriminate| |];
    (destruct (Card.generate rnd uuid pid (wordList g)); [|discriminate]);
    injection 1 as <- _; auto.
Qed.

Lemma run_op_step (o : op) (g : BingoGame) :
  winner_iff_finished g ->
  allowed_move o (status g) (status (run_op o g)) /\
  winner_iff_finished (run_op o g).
Proof.
  unfold winner_iff_finished, allowed_move. intros Hinv.
  destruct o as [| |rnd uuid pid|now pid word]; simpl.
  - unfold start. destruct (status g) eqn:Hs; simpl.
    + split; [right; left; auto|].
      split; [intros H; apply Hinv in H; congruence|discriminate].
    + rewrite Hs. auto.
    + rewrite Hs. auto.
  - unfold startNewRound. destruct (status g) eqn:Hs; simpl; try (rewrite Hs; auto).
    split; [right; right; right; auto|].
    split; [intros H; contradiction | discriminate].
  - destruct (generateCardForPlayer rnd uuid pid g) as [[g' c]|e] eqn:Hgen; [|auto].
    apply generateCardForPlayer_keeps in Hgen as (-> & -> & _). auto.
  - destruct (markWord now pid word g) as [[g' r]|e] eqn:Hm; [|auto].
    apply markWord_cases in Hm as [[HA [[Hs' Hw']|[Hs' Hw']]]|[HF ->]]; [| |auto].
    + rewrite Hs', Hw'. auto.
    + split.
      * right; right; left. split; [eauto|]. auto.
      * split; auto.
Qed.

(** C5: in every game reachable from a freshly constructed one by
    [start], [startNewRound], [generateCardForPlayer] and [markWord],
    [currentWinner] is set iff the status is [finished]; and every
    operation (its throwing branches included, which leave the game as it
    was) either keeps the status or moves it along waiting -> active
    (start), active -> finished (a winning mark), finished -> active
    (startNewRound), keeping the invariant. *)
Theorem game_status_invariant (g : BingoGame) :
  reachable g ->
  winner_iff_finished g /\
  (forall o, allowed_move o (status g) (status (run_op o g)) /\
             winner_iff_finished (run_op o g)).
Proof.
  intros Hr.
  assert (Hinv : winner_iff_finished g).
  { induction Hr as [sid wl g Hnew|o g Hr IH].
    - unfold new in Hnew. destruct (length (cleanWords wl) <? 24); [discriminate|].
      injection Hnew as <-. unfold winner_iff_finished; simpl.
      split; [intros H; contradiction|discriminate].
    - apply run_op_step. exact IH. }
  split; [exact Hinv|]. intros o. apply run_op_step. exact Hinv.
Qed.

Lemma markWord_finished_rejected_witness :
  status Samples.finished_game = Finished /\
  markWord 5%Z "player-1" "alpha" Samples.finished_game =
  Ok (Samples.finished_game, mkMarkResult false false None true None None).
Proof.
  assert (Hfin : status Samples.finished_game = Finished) by reflexivity.
  split; [exact Hfin|].
  exact (proj1 (markWord_finished_rejected _ Hfin) 5%Z "player-1" "alpha").
Defined.

Lemma game_status_invariant_witness :
  reachable Samples.fresh_game /\
  winner_iff_finished Samples.fresh_game.
Proof.
  assert (Hr : reachable Samples.fresh_game).
  { apply (reach_new "session-1" CardSpec.words_with_free). vm_compute. reflexivity. }
  split; [exact Hr|].
  exact (proj1 (game_status_invariant _ Hr)).
Defined.

End GameProofs.

Module SessionProofs.
Import JsString Card Game Session.

Section Listeners.
Variable W : Type.

Lemma emit_loop_in_order (ls : list (EventListener W)) (ev : GameEvent) (w : W) :
  emit_loop W ls ev w = fold_left (fun w l => fst (l ev w)) ls w.
Proof.
  revert w. induction ls as [|l ls IH]; intros w; simpl; [reflexivity|].
  destruct (l ev w) as [w' o]. apply IH.
Qed.

Lemma emit_loop_never_throws (ls : list (EventListener W)) (ev : GameEvent) (w : W) :
  emit_loop W (map (never_throws W) ls) ev w = emit_loop W ls ev w.
Proof. rewrite !emit_loop_in_order. revert w. induction ls; intros w; simpl; auto. Qed.

Lemma ret_obl {A} (a : A) : throw_oblivious W (ret a).
Proof. intros env st. reflexivity. Qed.

Lemma throw_obl {A} (e : error) : throw_oblivious W (A:=A) (throw e).
Proof. intros env st. reflexivity. Qed.

Lemma bind_obl {A B} (m : M W A) (k : A -> M W B) :
  throw_oblivious W m -> (forall a, throw_oblivious W (k a)) ->
  throw_oblivious W (bind m k).
Proof.
  intros Hm Hk env st. unfold bind. rewrite Hm.
  destruct (m env st) as [st' [a|e]]; [apply Hk | reflexivity].
Qed.

Lemma gets_obl {A} (f : Session W -> A) :
  (forall st, f (sess W (erase_throws W st)) = f (sess W st)) ->
  throw_oblivious W (gets f).
Proof. intros Hf env st. unfold gets. rewrite Hf. reflexivity. Qed.

Lemma fresh_uuid_obl : throw_oblivious W fresh_uuid.
Proof. intros env st. reflexivity. Qed.

Lemma date_now_obl : throw_oblivious W date_now.
Proof. intros env st. reflexivity. Qed.

Lemma emit_obl (ev : GameEvent) : throw_oblivious W (emit ev).
Proof.
  intros env st. unfold emit, erase_throws; simpl.
  rewrite emit_loop_never_throws. reflexivity.
Qed.

Lemma update_players_obl f h : throw_oblivious W (update_players f h).
Proof. intros env st. reflexivity. Qed.

Lemma new_game_obl : throw_oblivious W new_game.
Proof.
  intros env st. unfold new_game; simpl.
  destruct (Game.new _ _); reflexivity.
Qed.

Lemma game_op_obl {A} (f : BingoGame -> result error (BingoGame * A)) :
  throw_oblivious W (game_op f).
Proof.
  intros env st. unfold game_op; simpl.
  destruct (game W (sess W st)) as [g|]; [|reflexivity].
  destruct (f g) as [[g' a]|e]; reflexivity.
Qed.

Lemma deal_card_obl (pid : string) : throw_oblivious W (deal_card pid).
Proof.
  intros env st. unfold deal_card; simpl.
  destruct (game W (sess W st)) as [g|]; [|reflexivity].
  destruct (generateCardForPlayer _ _ _ _) as [[g' c]|e]; reflexivity.
Qed.

Lemma for_each_obl {A} (l : list A) (body : A -> M W unit) :
  (forall a, throw_oblivious W (body a)) -> throw_oblivious W (for_each l body).
Proof.
  intros Hb. induction l as [|a l IH]; simpl; [apply ret_obl|].
  apply bind_obl; [apply Hb | intros _; exact IH].
Qed.

Ltac obl :=
  repeat match goal with
  | |- throw_oblivious _ (bind _ _) => apply bind_obl; [|intros ?]
  | |- throw_oblivious _ (ret _) => apply ret_obl
  | |- throw_oblivious _ (throw _) => apply throw_obl
  | |- throw_oblivious _ (gets _) => apply gets_obl; intros []; reflexivity
  | |- throw_oblivious _ fresh_uuid => apply fresh_uuid_obl
  | |- throw_oblivious _ date_now => apply date_now_obl
  | |- throw_oblivious _ (emit _) => apply emit_obl
  | |- throw_oblivious _ (update_players _ _) => apply update_players_obl
  | |- throw_oblivious _ new_game => apply new_game_obl
  | |- throw_oblivious _ (game_op _) => apply game_op_obl
  | |- throw_oblivious _ (deal_card _) => apply deal_card_obl
  | |- throw_oblivious _ (for_each _ _) => apply for_each_obl; intros []
  | |- throw_oblivious _ (if ?b then _ else _) => destruct b
  | |- throw_oblivious _ (match ?x with _ => _ end) => destruct x
  end.

(** C7: [emit] calls every registered listener, in subscription order,
    with the same event, whatever the earlier ones did; and a listener
    that throws changes nothing: [addPlayer], [removePlayer], [startGame],
    [startNewRound] and [markWord] give the same result and the same
    session as they do when every listener, with the same effect, returns
    normally. Listeners act on the world [W] outside the session; they
    cannot reach into the session's private state. *)
Theorem emit_isolates_listener_throws :
  (forall (ls : list (EventListener W)) ev w,
     emit_loop W ls ev w = fold_left (fun w l => fst (l ev w)) ls w /\
     emit_loop W (map (never_throws W) ls) ev w = emit_loop W ls ev w) /\
  (forall name, throw_oblivious W (addPlayer W name)) /\
  (forall pid, throw_oblivious W (removePlayer W pid)) /\
  throw_oblivious W (startGame W) /\
  throw_oblivious W (startNewRound W) /\
  (forall pid word, throw_oblivious W (markWord W pid word)).
Proof.
  split; [intros; split; [apply emit_loop_in_order | apply emit_loop_never_throws]|].
  split; [intros name; unfold addPlayer; obl|].
  split; [intros pid; unfold removePlayer; obl|].
  split; [unfold startGame; obl|].
  split; [unfold startNewRound; obl|].
  intros pid word. unfold markWord. obl.
Qed.

End Listeners.

End SessionProofs.

Module WordListProofs.
Import Card Game Session SessionSpec GameProofs.

Section WithWorld.
Variable W : Type.
Variable wl : list string.

Lemma ret_safe {A} (a : A) : wordlist_safe W wl (ret a).
Proof. intros env st Hi. split; [exact Hi | discriminate]. Qed.

Lemma throw_safe {A} (e : error) :
  (forall n, e <> WordListTooShort n) -> wordlist_safe W wl (A:=A) (throw e).
Proof. intros He env st Hi. split; [exact Hi|]. intros n H. injection H. apply He. Qed.

Lemma bind_safe {A B} (m : M W A) (k : A -> M W B) :
  wordlist_safe W wl m -> (forall a, wordlist_safe W wl (k a)) ->
  wordlist_safe W wl (bind m k).
Proof.
  intros Hm Hk env st Hi. unfold bind.
  destruct (Hm env st Hi) as [Hi' He].
  destruct (m env st) as [st' [a|e]]; simpl in *.
  - apply Hk, Hi'.
  - split; [exact Hi'|]. intros n Hn. injection Hn as ->. apply (He n). reflexivity.
Qed.

Lemma gets_safe {A} (f : Session W -> A) : wordlist_safe W wl (gets f).
Proof. intros env st Hi. split; [exact Hi | discriminate]. Qed.

Lemma fresh_uuid_safe : wordlist_safe W wl fresh_uuid.
Proof. intros env st Hi. split; [exact Hi | discriminate]. Qed.

Lemma date_now_safe : wordlist_safe W wl date_now.
Proof. intros env st Hi. split; [exact Hi | discriminate]. Qed.

Lemma emit_safe (ev : GameEvent) : wordlist_safe W wl (emit ev).
Proof. intros env st Hi. split; [exact Hi | discriminate]. Qed.

Lemma update_players_safe f h : wordlist_safe W wl (update_players f h).
Proof. intros env st Hi. split; [exact Hi | discriminate]. Qed.

Lemma new_game_safe : wordlist_safe W wl new_game.
Proof.
  intros env st (Hw & Hg & Hlen). unfold new_game, Game.new.
  rewrite Hw. destruct (Nat.ltb_spec (length (cleanWords wl)) 24) as [Hlt|_]; [lia|].
  simpl. split; [|discriminate].
  split; [exact Hw|]. split; [|exact Hlen].
  intros g Hs. injection Hs as <-. reflexivity.
Qed.

Lemma game_op_safe {A} (f : BingoGame -> result error (BingoGame * A)) :
  (forall g g' a, f g = Ok (g', a) -> Game.wordList g' = Game.wordList g) ->
  (forall g n, f g <> Err (WordListTooShort n)) ->
  wordlist_safe W wl (game_op f).
Proof.
  intros Hk He env st Hi. pose proof Hi as (Hw & Hg & Hlen). unfold game_op.
  destruct (game W (sess W st)) as [g|] eqn:Hgame; [|split; [exact Hi | discriminate]].
  destruct (f g) as [[g' a]|e] eqn:Hf; simpl.
  - split; [|discriminate]. split; [exact Hw|]. split; [|exact Hlen].
    intros g0 Hs. injection Hs as <-. rewrite (Hk _ _ _ Hf). apply Hg; reflexivity.
  - split; [exact Hi|]. intros n Hn. injection Hn as ->. exact (He g n Hf).
Qed.

Lemma deal_card_safe (pid : string) : wordlist_safe W wl (deal_card pid).
Proof.
  intros env st Hi. pose proof Hi as (Hw & Hg & Hlen). unfold deal_card.
  destruct (game W (sess W st)) as [g|] eqn:Hgame; [|split; [exact Hi | discriminate]].
  destruct (generateCardForPlayer _ _ pid g) as [[g' c]|e] eqn:Hgen; simpl.
  - apply generateCardForPlayer_keeps in Hgen as (_ & _ & Hk).
    split; [|discriminate]. split; [exact Hw|]. split; [|exact Hlen].
    intros g0 Hs. injection Hs as <-. rewrite Hk. apply Hg; reflexivity.
  - split; [exact Hi|]. intros n Hn. injection Hn as ->.
    unfold generateCardForPlayer, Card.generate in Hgen.
    rewrite (Hg g eq_refl) in Hgen.
    destruct (Nat.ltb_spec (length (cleanWords wl)) 24) as [Hlt|_]; [lia|].
    destruct (status g); discriminate.
Qed.

Lemma for_each_safe {A} (l : list A) (body : A -> M W unit) :
  (forall a, wordlist_safe W wl (body a)) -> wordlist_safe W wl (for_each l body).
Proof.
  intros Hb. induction l as [|a l IH]; simpl; [apply ret_safe|].
  apply bind_safe; [apply Hb | intros _; exact IH].
Qed.

Lemma addEventListener_safe (l : EventListener W) :
  wordlist_safe W wl (addEventListener W l).
Proof. intros env st Hi. split; [exact Hi | discriminate]. Qed.

Ltac safe :=
  repeat match goal with
  | |- wordlist_safe _ _ (bind _ _) => apply bind_safe; [|intros ?]
  | |- wordlist_safe _ _ (ret _) => apply ret_safe
  | |- wordlist_safe _ _ (throw _) => apply throw_safe; intros ? ?; discriminate
  | |- wordlist_safe _ _ (gets _) => apply gets_safe
  | |- wordlist_safe _ _ fresh_uuid => apply fresh_uuid_safe
  | |- wordlist_safe _ _ date_now => apply date_now_safe
  | |- wordlist_safe _ _ (emit _) => apply emit_safe
  | |- wordlist_safe _ _ (update_players _ _) => apply update_players_safe
  | |- wordlist_safe _ _ new_game => apply new_game_safe
  | |- wordlist_safe _ _ (deal_card _) => apply deal_card_safe
  | |- wordlist_safe _ _ (for_each _ _) => apply for_each_safe; intros []
  | |- wordlist_safe _ _ (if ?b then _ else _) => destruct b
  | |- wordlist_safe _ _ (match ?x with _ => _ end) => destruct x
  end.

Lemma start_op_safe :
  wordlist_safe W wl (game_op (fun g => match start g with
                                        | Ok g' => Ok (g', tt)
                                        | Err e => Err e
                                        end)).
Proof.
  apply game_op_safe.
  - intros g g' a. unfold start. destruct (status g); try discriminate.
    injection 1 as <- _. reflexivity.
  - intros g n. unfold start. destruct (status g); discriminate.
Qed.

Lemma startNewRound_op_safe :
  wordlist_safe W wl (game_op (fun g => match Game.startNewRound g with
                                        | Ok g' => Ok (g', tt)
                                        | Err e => Err e
                                        end)).
Proof.
  apply game_op_safe.
  - intros g g' a. unfold Game.startNewRound. destruct (status g); try discriminate.
    injection 1 as <- _. reflexivity.
  - intros g n. unfold Game.startNewRound. destruct (status g); discriminate.
Qed.

Lemma markWord_op_safe (t : Z) (pid word : string) :
  wordlist_safe W wl (game_op (Game.markWord t pid word)).
Proof.
  apply game_op_safe.
  - intros g g' r Hm. unfold Game.markWord in Hm.
    destruct (status g); try discriminate; [|injection Hm as <- _; reflexivity].
    destruct (cards g !! pid) as [card|]; [|injection Hm as <- _; reflexivity].
    destruct (Card.markWord card word) as [card' []]; simpl in Hm;
      [|injection Hm as <- _; reflexivity].
    destruct (hasWon card'); [destruct (getWinningPattern card')|];
      injection Hm as <- _; reflexivity.
  - intros g n Hm. unfold Game.markWord in Hm.
    destruct (status g); try discriminate.
    destruct (cards g !! pid) as [card|]; [|discriminate].
    destruct (Card.markWord card word) as [card' []]; simpl in Hm; [|discriminate].
    destruct (hasWon card'); [destruct (getWinningPattern card')|]; discriminate.
Qed.

Lemma run_sop_safe (o : sop W) : wordlist_safe W wl (run_sop W o).
Proof.
  destruct o as [name|pid| | |pid word|l]; simpl.
  - apply bind_safe; [|intros; apply ret_safe]. unfold addPlayer. safe.
  - unfold removePlayer. safe.
  - unfold startGame. safe; [apply start_op_safe].
  - unfold startNewRound. safe; [apply startNewRound_op_safe].
  - apply bind_safe; [|intros; apply ret_safe]. unfold markWord. safe;
      apply markWord_op_safe.
  - apply addEventListener_safe.
Qed.

End WithWorld.

(** C10: constructing a [Session] validates the word list as [BingoGame]
    does (it cleans to at least 24 words, or the constructor throws); in
    every state reached afterwards by session operations the session still
    holds that list, its game was built over it, and no operation
    ([startGame], [startNewRound], a late joiner's deal in [addPlayer], or
    any other) throws the word-list error. *)
Theorem session_wordlist_validated (W : Type) (sid : string) (wl : list string)
    (s : Session W) :
  new_session W sid wl = Ok s ->
  24 <= length (cleanWords wl) /\
  forall (w : W) (st : St W),
    sreach W (mkSt W s w 0 0) st ->
    s_wordList W (sess W st) = wl /\
    (forall g, game W (sess W st) = Some g -> Game.wordList g = wl) /\
    (forall o env n, snd (run_sop W o env st) <> Err (WordListTooShort n)).
Proof.
  intros Hnew. unfold new_session, Game.new in Hnew.
  destruct (Nat.ltb_spec (length (cleanWords wl)) 24) as [_|Hlen]; [discriminate|].
  injection Hnew as <-. split; [exact Hlen|].
  intros w st Hr.
  assert (Hi : wordlist_inv W wl st).
  { induction Hr as [|o env st Hr IH].
    - split; [reflexivity|]. split; [discriminate | exact Hlen].
    - apply (run_sop_safe W wl o env st IH). }
  destruct Hi as (Hw & Hg & Hl). split; [exact Hw|]. split; [exact Hg|].
  intros o env. apply (run_sop_safe W wl o env st). split; auto.
Qed.

Lemma session_wordlist_validated_witness :
  new_session unit "session-1" CardSpec.words_with_free
    = Ok (mkSession unit "session-1" CardSpec.words_with_free [] None [] ∅) /\
  24 <= length (cleanWords CardSpec.words_with_free).
Proof.
  split; [vm_compute; reflexivity|].
  apply (session_wordlist_validated unit "session-1" CardSpec.words_with_free
           (mkSession unit "session-1" CardSpec.words_with_free [] None [] ∅)).
  vm_compute. reflexivity.
Defined.

End WordListProofs.

Module JsonProofs.
Import Json.

Lemma num_ok_json_number (f : float) :
  num_ok f -> PrimFloat.is_finite f = true /\ json_number f = f.
Proof.
  intros [Hf Hz]. split; [exact Hf|]. unfold json_number.
  destruct (PrimFloat.eqb f PrimFloat.zero) eqn:E; [symmetry; apply Hz; reflexivity | reflexivity].
Qed.

Lemma json_safe_arr (l : list jsval) :
  json_safe (JArr l) <-> Forall json_safe l.
Proof.
  induction l as [|x l IH]; simpl in *; [split; auto|].
  rewrite Forall_cons, <- IH. reflexivity.
Qed.

Lemma json_safe_obj (ps : list (string * jsval)) :
  json_safe (JObj ps) <-> Forall (fun kx => snd kx <> JUndefined -> json_safe (snd kx)) ps.
Proof.
  induction ps as [|[k x] ps IH]; simpl in *; [split; auto|].
  rewrite Forall_cons, <- IH. simpl.
  destruct x; simpl; split; intros H; try tauto; split; try tauto;
    try (apply (proj1 H); discriminate); apply (proj2 H).
Qed.

(** [JSON.parse(JSON.stringify(v))] drops the [undefined] properties of
    a [json_safe] value and changes nothing else. *)
Lemma stringify_safe (v : jsval) :
  json_safe v -> of_json (stringify_value v) = strip_undefined v.
Proof.
  induction v as [| | | f | | l IH | ps IH] using jsval_ind'; try (intros; reflexivity).
  - simpl. tauto.
  - simpl. intros Hn. destruct (num_ok_json_number _ Hn) as [-> ->]. reflexivity.
  - simpl. induction IH as [|x l Hx _ IHl]; [reflexivity|].
    intros [Hsx Hr]. specialize (IHl Hr). injection IHl as IHl.
    simpl. rewrite Hx by exact Hsx. rewrite IHl. reflexivity.
  - simpl. induction IH as [|[k x] ps Hx _ IHps]; [reflexivity|]. simpl in Hx.
    destruct x; cbn -[stringify_value strip_undefined of_json]; [exact IHps|..];
      intros [Hsx Hr]; specialize (IHps Hr); injection IHps as IHps;
      rewrite (Hx Hsx), IHps; reflexivity.
Qed.

Lemma strip_undefined_idem (v : jsval) :
  strip_undefined (strip_undefined v) = strip_undefined v.
Proof.
  induction v as [| | | | | l IH | ps IH] using jsval_ind'; try reflexivity.
  - simpl. induction IH as [|x l Hx _ IHl]; [reflexivity|].
    injection IHl as IHl. simpl. rewrite Hx, IHl. reflexivity.
  - simpl. induction IH as [|[k x] ps Hx _ IHps]; [reflexivity|].
    injection IHps as IHps. simpl in Hx.
    destruct x; simpl; try (rewrite IHps; reflexivity);
      simpl in Hx; rewrite Hx, IHps; reflexivity.
Qed.

Lemma stringify_deep_equal (v : jsval) :
  json_safe v -> deep_equal (of_json (stringify_value v)) v.
Proof.
  intros Hs. unfold deep_equal. rewrite stringify_safe by exact Hs.
  apply strip_undefined_idem.
Qed.

Lemma stringify_strings (l : list string) :
  of_json (stringify_value (JArr (map JStr l))) = JArr (map JStr l).
Proof. induction l as [|s l IH]; [reflexivity|]. simpl in *. injection IH as ->. reflexivity. Qed.

Lemma strings_map (l : list string) : strings (map JStr l) = Some l.
Proof. induction l as [|s l IH]; [reflexivity|]. simpl. rewrite IH. reflexivity. Qed.

End JsonProofs.

Module ProtocolProofs.
Import Json RelayProtocol Protocol ProtocolSpec JsonProofs.

Lemma relay_json (m : RelayMessage) :
  of_json (stringify_value (relay_to_js m)) = relay_to_js m.
Proof.
  destruct m as [| | | | | l | | |]; try reflexivity.
  pose proof (stringify_strings l) as H. simpl in *. rewrite H. reflexivity.
Qed.

Lemma command_json (c : Command) :
  of_json (stringify_value (command_to_js c)) = command_to_js c.
Proof.
  destruct c as [l| | | |]; try reflexivity.
  pose proof (stringify_strings l) as H. simpl in *. rewrite H. reflexivity.
Qed.

Lemma relay_roundtrip (m : RelayMessage) :
  parseRelayMessage (serializeRelayMessage m) = Some m.
Proof.
  unfold parseRelayMessage, serializeRelayMessage, JSON_stringify.
  change (JSON_parse (Some (stringify_value (relay_to_js m))))
    with (Some (of_json (stringify_value (relay_to_js m)))).
  rewrite relay_json. destruct m as [| | | | | l | | |]; try reflexivity.
  cbn -[strings]. rewrite strings_map. reflexivity.
Qed.

Lemma command_roundtrip (c : Command) : parseCommand (serializeCommand c) = Some c.
Proof.
  unfold parseCommand, serializeCommand, JSON_stringify.
  change (JSON_parse (Some (stringify_value (command_to_js c))))
    with (Some (of_json (stringify_value (command_to_js c)))).
  rewrite command_json. destruct c as [l| | | |]; try reflexivity.
  cbn -[strings]. rewrite strings_map. reflexivity.
Qed.

Lemma safe_map_str (l : list string) : json_safe (JArr (map JStr l)).
Proof. apply json_safe_arr, Forall_forall. intros x Hx. apply list_elem_of_In, in_map_iff in Hx as (s & <- & _). exact I. Qed.

Lemma safe_map_bool (l : list bool) : json_safe (JArr (map JBool l)).
Proof. apply json_safe_arr, Forall_forall. intros x Hx. apply list_elem_of_In, in_map_iff in Hx as (b & <- & _). exact I. Qed.

Lemma safe_map_rows {A} (f : A -> jsval) (rows : list (list A)) :
  (forall l, json_safe (JArr (map f l))) -> json_safe (JArr (map (fun row => JArr (map f row)) rows)).
Proof.
  intros Hr. apply json_safe_arr, Forall_forall. intros x Hx.
  apply list_elem_of_In, in_map_iff in Hx as (row & <- & _). apply Hr.
Qed.

Lemma event_json_safe (e : ServerEvent) : event_numbers_ok e -> json_safe (event_to_js e).
Proof.
  intros He.
  destruct e as [| | rn g mk | | | | n p rn | | es |]; simpl in He;
    apply (proj2 (json_safe_obj _));
    repeat match goal with
    | |- List.Forall _ [] => apply List.Forall_nil
    | |- List.Forall _ (_ :: _) => apply List.Forall_cons; [cbn [snd]; intros _|]
    end;
    try exact I; try exact He; try exact (proj2 He).
  - apply safe_map_rows, safe_map_str.
  - apply safe_map_rows, safe_map_bool.
  - destruct p as [r|c|[]|]; simpl in *; tauto.
  - apply json_safe_arr, Forall_forall. intros x Hx.
    apply list_elem_of_In, in_map_iff in Hx as (s & <- & Hs). rewrite Forall_forall in He.
    destruct (He s (proj2 (list_elem_of_In _ _) Hs)) as (H1 & H2 & H3). unfold score_to_js.
    destruct (lastWinRound s); simpl; tauto.
Qed.

Lemma stringify_numbers (v : jsval) :
  no_undefined_elems v -> of_json (stringify_value v) = strip_undefined (json_numbers v).
Proof.
  induction v as [| | | f | | l IH | ps IH] using jsval_ind'; try (intros; reflexivity).
  - simpl. tauto.
  - intros _. simpl. unfold json_number.
    destruct (PrimFloat.is_finite f); [destruct (PrimFloat.eqb f PrimFloat.zero)|]; reflexivity.
  - simpl. induction IH as [|x l Hx _ IHl]; [reflexivity|].
    intros [Hsx Hr]. specialize (IHl Hr). injection IHl as IHl.
    simpl. rewrite Hx by exact Hsx. rewrite IHl. reflexivity.
  - simpl. induction IH as [|[k x] ps Hx _ IHps]; [reflexivity|]. simpl in Hx.
    destruct x as [| | | f | | |]; cbn -[stringify_value strip_undefined of_json json_numbers];
      [exact IHps|..]; intros [Hsx Hr]; specialize (IHps Hr); injection IHps as IHps;
      rewrite (Hx Hsx), IHps; cbn [json_numbers];
      try (destruct (PrimFloat.is_finite f); [destruct (PrimFloat.eqb f PrimFloat.zero)|]);
      reflexivity.
Qed.

Lemma no_undefined_arr (l : list jsval) :
  no_undefined_elems (JArr l) <-> Forall no_undefined_elems l.
Proof.
  induction l as [|x l IH]; simpl in *; [split; auto|].
  rewrite Forall_cons, <- IH. reflexivity.
Qed.

Lemma no_undefined_obj (ps : list (string * jsval)) :
  no_undefined_elems (JObj ps) <->
  Forall (fun kx => snd kx <> JUndefined -> no_undefined_elems (snd kx)) ps.
Proof.
  induction ps as [|[k x] ps IH]; simpl in *; [split; auto|].
  rewrite Forall_cons, <- IH. simpl.
  destruct x; simpl; split; intros H; try tauto; split; try tauto;
    try (apply (proj1 H); discriminate); apply (proj2 H).
Qed.

Lemma no_undefined_rows {A} (f : A -> jsval) (rows : list (list A)) :
  (forall a, no_undefined_elems (f a)) ->
  no_undefined_elems (JArr (map (fun row => JArr (map f row)) rows)).
Proof.
  intros Hf. apply no_undefined_arr, Forall_forall. intros x Hx.
  apply list_elem_of_In, in_map_iff in Hx as (row & <- & _).
  apply no_undefined_arr, Forall_forall. intros y Hy.
  apply list_elem_of_In, in_map_iff in Hy as (a & <- & _). apply Hf.
Qed.

Lemma event_no_undefined (e : ServerEvent) : no_undefined_elems (event_to_js e).
Proof.
  destruct e as [| | rn g mk | | | | n p rn | | es |]; cbn [event_to_js];
    apply (proj2 (no_undefined_obj _));
    repeat match goal with
    | |- List.Forall _ [] => apply List.Forall_nil
    | |- List.Forall _ (_ :: _) => apply List.Forall_cons; [cbn [snd]; intros _|]
    end;
    try exact I.
  - apply no_undefined_rows. intros a. exact I.
  - apply no_undefined_rows. intros a. exact I.
  - destruct p as [r|c|[]|]; simpl; tauto.
  - apply no_undefined_arr, Forall_forall. intros x Hx.
    apply list_elem_of_In, in_map_iff in Hx as (s & <- & _). unfold score_to_js.
    destruct (lastWinRound s); simpl; tauto.
Qed.
(** C6 (as stated): the event [GameStatusEvent "active" NaN] is a
    well-typed [ServerEvent], but [JSON.stringify] writes its round as
    [null], so parsing the JSON back gives [round: null], which is not
    deep-equal to [NaN]; the round-trip claim fails. *)
Theorem roundtrip_claim_counterexample : ~ roundtrip_claim.
Proof.
  intros (_ & _ & Hev). destruct (Hev nan_status_event) as (v & Hp & Hd).
  vm_compute in Hp. injection Hp as <-. vm_compute in Hd. discriminate Hd.
Qed.

(** C6 (amended): every relay envelope parses back from its serialization
    to itself, every command parses back from its JSON to itself, every
    server event whose numbers are finite and not [-0] reads back from its
    JSON as a value deep-equal to it, and every server event reads back
    deep-equal to itself with each [NaN] or infinite number replaced by
    [null] and [-0] by [0] ([json_numbers]). *)
Theorem roundtrip_finite_numbers :
  (forall m, parseRelayMessage (serializeRelayMessage m) = Some m) /\
  (forall c, parseCommand (serializeCommand c) = Some c) /\
  (forall e, event_numbers_ok e ->
     exists v, JSON_parse (serializeEvent e) = Some v /\ deep_equal v (event_to_js e)) /\
  (forall e, exists v, JSON_parse (serializeEvent e) = Some v /\
                       deep_equal v (json_numbers (event_to_js e))).
Proof.
  split; [exact relay_roundtrip|]. split; [exact command_roundtrip|]. split.
  - intros e He. exists (of_json (stringify_value (event_to_js e))). split; [reflexivity|].
    apply stringify_deep_equal, event_json_safe, He.
  - intros e. exists (of_json (stringify_value (event_to_js e))). split; [reflexivity|].
    unfold deep_equal. rewrite stringify_numbers by apply event_no_undefined.
    apply strip_undefined_idem.
Qed.

Lemma roundtrip_finite_numbers_witness :
  (event_numbers_ok (GameStatusEvent "active" 1%float) /\
   exists v, JSON_parse (serializeEvent (GameStatusEvent "active" 1%float)) = Some v /\
             deep_equal v (event_to_js (GameStatusEvent "active" 1%float))) /\
  json_numbers (event_to_js nan_status_event) =
    JObj [("type", JStr "game_status"); ("status", JStr "active"); ("round", JNull)] /\
  exists v, JSON_parse (serializeEvent nan_status_event) = Some v /\
            deep_equal v (json_numbers (event_to_js nan_status_event)).
Proof.
  assert (Hn : event_numbers_ok (GameStatusEvent "active" 1%float)).
  { split; [vm_compute; reflexivity | vm_compute; discriminate]. }
  split; [split; [exact Hn|]|].
  - apply (proj1 (proj2 (proj2 roundtrip_finite_numbers)) (GameStatusEvent "active" 1%float)).
    exact Hn.
  - split; [vm_compute; reflexivity|].
    exact (proj2 (proj2 (proj2 roundtrip_finite_numbers)) nan_status_event).
Defined.

End ProtocolProofs.

Module RelayProofs.
Import Json RelayProtocol Relay.

Lemma send_keeps (ws : socket) (f : frame) : announces f = false -> keeps (send ws f).
Proof.
  intros Hf cid st [Hp|[Hc|Hr]]; unfold send in *; simpl in *.
  - left. exact Hp.
  - destruct Hc as [a Hc]. apply in_app_iff in Hc as [Hc|[Hc|[]]].
    + right; left; exists a; exact Hc.
    + injection Hc as _ Hfe. subst f. discriminate Hf.
  - destruct Hr as (a & cs & Hc & Hin). apply in_app_iff in Hc as [Hc|[Hc|[]]].
    + right; right; exists a, cs; split; assumption.
    + injection Hc as _ Hfe. subst f. discriminate Hf.
Qed.

Lemma keeps_fields (g : RelayState -> RelayState) :
  (forall st, playerConnections (g st) = playerConnections st /\ sent (g st) = sent st) ->
  keeps g.
Proof. intros Hg cid st H. destruct (Hg st) as [Hp Hs]. unfold mentions in *. rewrite Hp, Hs in H. exact H. Qed.

Lemma set_admin_keeps a r : keeps (set_admin a r).
Proof. apply keeps_fields. split; reflexivity. Qed.

Lemma attach_keeps ws h : keeps (attach ws h).
Proof. apply keeps_fields. split; reflexivity. Qed.

Lemma close_socket_keeps ws : keeps (close_socket ws).
Proof. apply keeps_fields. split; reflexivity. Qed.

Lemma keeps_comp g1 g2 : keeps g1 -> keeps g2 -> keeps (fun st => g1 (g2 st)).
Proof. intros H1 H2 cid st H. apply H2, H1, H. Qed.

Lemma sendToAdmin_keeps m : announces (Envelope m) = false -> keeps (sendToAdmin m).
Proof.
  intros Hm cid st H. unfold sendToAdmin in H.
  destruct (adminWs st) as [a|]; [|exact H].
  destruct (is_open st a); [|exact H]. exact (send_keeps a _ Hm cid st H).
Qed.

Lemma sendToPlayer_keeps ws f : announces f = false -> keeps (sendToPlayer ws f).
Proof.
  intros Hf cid st H. unfold sendToPlayer in H.
  destruct (is_open st ws); [exact (send_keeps ws f Hf cid st H) | exact H].
Qed.

Lemma fold_keeps {A} (g : A -> RelayState -> RelayState) (l : list A) :
  (forall x, keeps (g x)) -> keeps (fun st => fold_left (fun st' x => g x st') l st).
Proof.
  intros Hg. induction l as [|x l IH]; intros cid st H; simpl in *; [exact H|].
  apply (Hg x), (IH cid), H.
Qed.

Lemma send_to_all_keeps f : announces f = false -> keeps (send_to_all f).
Proof.
  intros Hf cid st H. unfold send_to_all in H.
  exact (fold_keeps (fun ws => sendToPlayer ws f) _ (fun ws => sendToPlayer_keeps ws f Hf) cid st H).
Qed.

Lemma roster_keeps : keeps (fun st => sendToAdmin (PlayerRoster (map fst (playerConnections st))) st).
Proof.
  intros cid st H. unfold sendToAdmin in H.
  destruct (adminWs st) as [a|]; [|exact H]. destruct (is_open st a); [|exact H].
  destruct H as [Hp|[Hc|(b & cs & Hc & Hin)]]; unfold send in *; simpl in *.
  - left; exact Hp.
  - destruct Hc as [b Hc]. apply in_app_iff in Hc as [Hc|[Hc|[]]].
    + right; left; exists b; exact Hc.
    + discriminate Hc.
  - apply in_app_iff in Hc as [Hc|[Hc|[]]].
    + right; right; exists b, cs; split; assumption.
    + injection Hc as _ Hcs. subst cs. left. exact Hin.
Qed.

Lemma handleAdminMessage_keeps secret JSON_text raw :
  keeps (handleAdminMessage secret JSON_text raw).
Proof.
  intros cid st H. unfold handleAdminMessage in H.
  destruct (parseRelayMessage (JSON_text raw)) as [msg|]; [|exact H].
  destruct (adminRegistered st); simpl in H.
  - destruct msg; try exact H.
    + destruct (Session.js_map_get _ _); [|exact H].
      eapply sendToPlayer_keeps; [|exact H]; reflexivity.
    + eapply send_to_all_keeps; [|exact H]; reflexivity.
  - destruct msg as [sid sec| | | | | | | |];
      try (eapply sendToAdmin_keeps; [|exact H]; reflexivity).
    destruct (String.eqb sec secret); [|eapply sendToAdmin_keeps; [|exact H]; reflexivity].
    apply (set_admin_keeps (adminWs st) true), (sendToAdmin_keeps (AdminRegistered sid) eq_refl).
    destruct (playerConnections _) eqn:Hpc; [exact H|].
    rewrite <- Hpc in H. exact (roster_keeps cid _ H).
Qed.

Lemma js_map_set_keys {V} (k k' : string) (v : V) (m : list (string * V)) :
  In k' (map fst (Session.js_map_set k v m)) -> k' = k \/ In k' (map fst m).
Proof.
  induction m as [|[k0 v0] m IH]; simpl; [intuition|].
  destruct (String.eqb k k0); simpl; intros [H|H]; auto.
  destruct (IH H); auto.
Qed.

Lemma js_map_delete_keys {V} (k k' : string) (m : list (string * V)) :
  In k' (map fst (Session.js_map_delete k m)) -> In k' (map fst m).
Proof.
  induction m as [|[k0 v0] m IH]; simpl; [intuition|].
  destruct (negb (String.eqb k k0)); simpl; intros H; [destruct H|]; auto.
Qed.

Lemma on_message_keeps secret JSON_text h data :
  keeps (on_message secret JSON_text h data).
Proof.
  intros cid st H. destruct h; simpl in H; try exact H.
  - exact (handleAdminMessage_keeps secret JSON_text data cid st H).
  - eapply sendToAdmin_keeps; [|exact H]; reflexivity.
Qed.

Lemma on_close_keeps h : keeps (on_close h).
Proof.
  intros cid st H. destruct h as [|ws|cid'|ws cid']; simpl in H; try exact H.
  - destruct (adminWs st) as [a|]; [|exact H]. destruct (Nat.eqb ws a); [|exact H].
    apply (set_admin_keeps None false). eapply send_to_all_keeps; [|exact H]; reflexivity.
  - apply (sendToAdmin_keeps (PlayerDisconnected cid') eq_refl) in H.
    destruct H as [Hp|Hf]; [left | right; exact Hf].
    exact (js_map_delete_keys _ _ _ Hp).
Qed.

Lemma handleAdminConnection_keeps ws : keeps (handleAdminConnection ws).
Proof.
  intros cid st H. unfold handleAdminConnection in H.
  assert (Hacc : keeps (fun st0 => attach ws (AdminCloseHandler ws)
                          (attach ws AdminMessageHandler (set_admin (Some ws) false st0)))).
  { apply keeps_comp; [apply attach_keeps|].
    apply keeps_comp; [apply attach_keeps | apply set_admin_keeps]. }
  destruct (adminWs st) as [a|]; [destruct (is_open st a)|].
  - eapply send_keeps; [|exact H]; reflexivity.
  - exact (Hacc cid st H).
  - exact (Hacc cid st H).
Qed.

Lemma handlePlayerConnection_mentions uuid_at ws cid st :
  mentions cid (handlePlayerConnection uuid_at ws st) ->
  mentions cid st \/
  (adminWs st <> None /\ adminRegistered st = true /\ cid = uuid_at (uuids st)).
Proof.
  unfold handlePlayerConnection.
  destruct (adminWs st) as [a|] eqn:Ha; [destruct (adminRegistered st) eqn:Hr|];
    intros H; try (left; eapply send_keeps; [|exact H]; reflexivity).
  apply attach_keeps, attach_keeps in H.
  unfold sendToAdmin in H. simpl in H. rewrite Ha in H.
  assert (Hst : mentions cid (set_players (Session.js_map_set (uuid_at (uuids st)) ws
                   (playerConnections st)) (ws_map_set ws (uuid_at (uuids st))
                   (wsToConnectionId st)) (next_uuid st)) ->
                mentions cid st \/ cid = uuid_at (uuids st)).
  { intros [Hp|Hf]; simpl in *.
    - destruct (js_map_set_keys _ _ _ _ Hp); [right | left; left]; assumption.
    - left; right; exact Hf. }
  destruct (is_open _ a).
  - destruct H as [Hp|[(b & Hc)|(b & cs & Hc & Hin)]]; simpl in *.
    + destruct (Hst (or_introl Hp)) as [| ->]; [left; assumption | right; repeat split; congruence].
    + apply in_app_iff in Hc as [Hc|[Hc|[]]].
      * destruct (Hst (or_intror (or_introl (ex_intro _ b Hc)))) as [| ->];
          [left; assumption | right; repeat split; congruence].
      * injection Hc as _ ->. right; repeat split; congruence.
    + apply in_app_iff in Hc as [Hc|[Hc|[]]]; [|discriminate Hc].
      destruct (Hst (or_intror (or_intror (ex_intro _ b (ex_intro _ cs (conj Hc Hin))))))
        as [| ->]; [left; assumption | right; repeat split; congruence].
  - destruct (Hst H) as [| ->]; [left; assumption | right; repeat split; congruence].
Qed.

Lemma step_mentions secret uuid_at JSON_text ev st cid :
  mentions cid (step secret uuid_at JSON_text ev st) ->
  mentions cid st \/
  (exists ws, ev = PlayerConnects ws /\ adminWs st <> None /\ adminRegistered st = true /\
              cid = uuid_at (uuids st)).
Proof.
  destruct ev as [ws|ws|ws data|ws]; simpl; intros H.
  - left. exact (handleAdminConnection_keeps ws cid st H).
  - destruct (handlePlayerConnection_mentions uuid_at ws cid st H) as [|(? & ? & ?)];
      [left; assumption | right; exists ws; auto].
  - left. destruct (is_open st ws); [|exact H].
    exact (fold_keeps _ _ (fun h => on_message_keeps secret JSON_text h data) cid st H).
  - left. destruct (is_open st ws); [|exact H]. apply (close_socket_keeps ws).
    exact (fold_keeps _ _ on_close_keeps cid _ H).
Qed.

Lemma run_snoc secret uuid_at JSON_text evs ev st :
  run secret uuid_at JSON_text (evs ++ [ev]) st =
  step secret uuid_at JSON_text ev (run secret uuid_at JSON_text evs st).
Proof. unfold run. rewrite fold_left_app. reflexivity. Qed.

(** C8: while the stored admin socket is open, a new admin connection
    [ws2] is sent one [admin_error] envelope whose message
    "Admin already connected" contains "already", and nothing else
    happens: the stored admin socket, [adminRegistered], the player
    registry, the attached listeners and the closed sockets are as before
    ([ws2] gets no listeners and is not closed), and a player's frame
    forwarded afterwards still goes to the original admin. *)
Theorem second_admin_rejected (secret : string) (JSON_text : string -> text)
    (st : RelayState) (a ws2 : socket) :
  adminWs st = Some a -> is_open st a = true ->
  handleAdminConnection ws2 st = send ws2 (Envelope (AdminError "Admin already connected")) st /\
  String.index 0 "already" "Admin already connected" = Some 6 /\
  adminWs (handleAdminConnection ws2 st) = Some a /\
  adminRegistered (handleAdminConnection ws2 st) = adminRegistered st /\
  playerConnections (handleAdminConnection ws2 st) = playerConnections st /\
  handlers (handleAdminConnection ws2 st) = handlers st /\
  closed (handleAdminConnection ws2 st) = closed st /\
  (forall cid data,
     on_message secret JSON_text (PlayerMessageHandler cid) data (handleAdminConnection ws2 st) =
     send a (Envelope (Upstream cid data)) (handleAdminConnection ws2 st)).
Proof.
  intros Ha Ho.
  assert (Hst : handleAdminConnection ws2 st
                = send ws2 (Envelope (AdminError "Admin already connected")) st).
  { unfold handleAdminConnection. rewrite Ha, Ho. reflexivity. }
  rewrite Hst. split; [reflexivity|]. split; [reflexivity|].
  split; [exact Ha|]. repeat (split; [reflexivity|]).
  intros cid data. simpl. unfold sendToAdmin. simpl. rewrite Ha.
  unfold is_open in *. simpl. rewrite Ho. reflexivity.
Qed.

Lemma second_admin_rejected_witness :
  let st := mkRelay (Some 0) true [("c1", 2)] [(2, "c1")] 1 [] [] [] in
  adminWs st = Some 0 /\ is_open st 0 = true /\
  handleAdminConnection 1 st = send 1 (Envelope (AdminError "Admin already connected")) st.
Proof.
  intros st. split; [reflexivity|]. split; [reflexivity|].
  exact (proj1 (second_admin_rejected "secret" (fun _ => None) st 0 1 eq_refl eq_refl)).
Defined.

(** C9: a player socket that connects while no admin socket is stored or
    the admin is not registered is sent the transport-level error and
    nothing else changes: no [randomUUID()] is drawn, the registry and
    [wsToConnectionId] are unchanged, no listener is attached and the
    admin is sent nothing. Hence, over any run of the relay, every
    connection id in the registry, in a [player_connected] envelope or in
    a [player_roster] snapshot was drawn by a player connection made
    while an admin socket was stored and registered. *)
Theorem player_refused_without_admin (secret : string) (uuid_at : nat -> string)
    (JSON_text : string -> text) :
  (forall ws st, adminWs st = None \/ adminRegistered st = false ->
     handlePlayerConnection uuid_at ws st = send ws (Stringified session_unavailable) st) /\
  (forall evs cid, mentions cid (run secret uuid_at JSON_text evs init) ->
     exists pre ws post,
       evs = pre ++ PlayerConnects ws :: post /\
       adminWs (run secret uuid_at JSON_text pre init) <> None /\
       adminRegistered (run secret uuid_at JSON_text pre init) = true /\
       cid = uuid_at (uuids (run secret uuid_at JSON_text pre init))).
Proof.
  split.
  - intros ws st Hno. unfold handlePlayerConnection.
    destruct Hno as [-> | ->]; [reflexivity|]. destruct (adminWs st); reflexivity.
  - intros evs. induction evs as [|ev evs IH] using rev_ind; intros cid H.
    + destruct H as [[]|[(a & [])|(a & cs & [] & _)]].
    + rewrite run_snoc in H.
      destruct (step_mentions _ _ _ _ _ _ H) as [Hm|(ws & -> & Ha & Hr & ->)].
      * destruct (IH cid Hm) as (pre & ws & post & -> & Hrest).
        exists pre, ws, (post ++ [ev]). split; [|exact Hrest].
        rewrite <- app_assoc. reflexivity.
      * exists evs, ws, []. auto.
Qed.

Lemma player_refused_without_admin_witness :
  (adminWs init = None \/ adminRegistered init = false) /\
  handlePlayerConnection (fun _ => "c1") 1 init = send 1 (Stringified session_unavailable) init.
Proof.
  split; [left; reflexivity|].
  apply (proj1 (player_refused_without_admin "secret" (fun _ => "c1") (fun _ => None)) 1 init).
  left. reflexivity.
Defined.

End RelayProofs.

Module CardMoreProofs.
Import JsString Card CardSpec.

Lemma mk_set_mark_mono (c : BingoCard) (r0 k0 r k : nat) :
  mk c r k = true -> mk (set_mark c r0 k0) r k = true.
Proof.
  unfold set_mark. destruct (marked c !! r0) as [row|] eqn:H0; [|tauto].
  unfold mk; simpl. intros Hm.
  destruct (decide (r = r0)) as [->|Hr].
  - rewrite list_lookup_insert_eq by (eapply lookup_lt_Some; exact H0).
    rewrite H0 in Hm. simpl in *.
    destruct (decide (k = k0)) as [->|Hk].
    + destruct (decide (k0 < length row)) as [Hl|Hl].
      * rewrite list_lookup_insert_eq by exact Hl. reflexivity.
      * rewrite list_insert_ge by lia. exact Hm.
    + rewrite list_lookup_insert_ne by congruence. exact Hm.
  - rewrite list_lookup_insert_ne by congruence. exact Hm.
Qed.

Lemma mk_set_mark_new (c : BingoCard) (r0 k0 r k : nat) :
  mk (set_mark c r0 k0) r k = true -> mk c r k = true \/ (r = r0 /\ k = k0).
Proof.
  unfold set_mark. destruct (marked c !! r0) as [row|] eqn:H0; [|tauto].
  unfold mk; simpl. intros Hm.
  destruct (decide (r = r0)) as [->|Hr].
  - rewrite list_lookup_insert_eq in Hm by (eapply lookup_lt_Some; exact H0).
    rewrite H0. simpl in *.
    destruct (decide (k = k0)) as [->|Hk]; [tauto|].
    rewrite list_lookup_insert_ne in Hm by congruence. tauto.
  - rewrite list_lookup_insert_ne in Hm by congruence. tauto.
Qed.

Lemma mk_set_mark_at (c : BingoCard) (r0 k0 r k : nat) :
  five_by_five (marked c) -> r0 < 5 -> k0 < 5 ->
  mk (set_mark c r0 k0) r k =
  if Nat.eqb r r0 && Nat.eqb k k0 then true else mk c r k.
Proof.
  intros [Hlen Hrows] Hr0 Hk0.
  destruct (marked c !! r0) as [row|] eqn:H0;
    [|apply lookup_ge_None in H0; lia].
  assert (Hrow : length row = 5).
  { rewrite Forall_forall in Hrows. apply Hrows.
    apply list_elem_of_lookup. exists r0. exact H0. }
  unfold set_mark. rewrite H0. unfold mk; simpl.
  destruct (Nat.eqb_spec r r0) as [->|Hr].
  - rewrite list_lookup_insert_eq by lia. rewrite H0. simpl.
    destruct (Nat.eqb_spec k k0) as [->|Hk].
    + rewrite list_lookup_insert_eq by lia. reflexivity.
    + rewrite list_lookup_insert_ne by congruence. reflexivity.
  - rewrite list_lookup_insert_ne by congruence. reflexivity.
Qed.

Lemma conj5_mono (a b c d e a' b' c' d' e' : bool) :
  (a = true -> a' = true) -> (b = true -> b' = true) -> (c = true -> c' = true) ->
  (d = true -> d' = true) -> (e = true -> e' = true) ->
  a && b && c && d && e = true -> a' && b' && c' && d' && e' = true.
Proof. intros. repeat rewrite andb_true_iff in *. intuition. Qed.

Lemma find_seq_mono (f f' : nat -> bool) (n : nat) :
  (forall x, f x = true -> f' x = true) ->
  find f (seq 0 5) = Some n -> exists n', find f' (seq 0 5) = Some n'.
Proof.
  intros Hm Hf. apply find_some in Hf as [Hin Hn].
  destruct (find f' (seq 0 5)) as [n'|] eqn:Hf'; [eauto|].
  pose proof (find_none _ _ Hf' n Hin) as H. rewrite (Hm n Hn) in H. discriminate.
Qed.

(** A card whose marks include those of a won card has won too. *)
Lemma hasWon_mono (c c' : BingoCard) :
  (forall r k, mk c r k = true -> mk c' r k = true) ->
  hasWon c = true -> hasWon c' = true.
Proof.
  intros Hm. unfold hasWon, getWinningPattern.
  assert (Hrow : forall r, row_full c r = true -> row_full c' r = true)
    by (intros r; apply conj5_mono; apply Hm).
  assert (Hcol : forall k, col_full c k = true -> col_full c' k = true)
    by (intros k; apply conj5_mono; apply Hm).
  destruct (find (row_full c) (seq 0 5)) as [n|] eqn:Hr.
  { destruct (find_seq_mono _ _ _ Hrow Hr) as [n' ->]. reflexivity. }
  destruct (find (row_full c') (seq 0 5)); [reflexivity|].
  destruct (find (col_full c) (seq 0 5)) as [n|] eqn:Hc.
  { destruct (find_seq_mono _ _ _ Hcol Hc) as [n' ->]. reflexivity. }
  destruct (find (col_full c') (seq 0 5)); [reflexivity|].
  destruct (mk c 0 0 && mk c 1 1 && mk c 2 2 && mk c 3 3 && mk c 4 4) eqn:D1.
  { rewrite (conj5_mono _ _ _ _ _ _ _ _ _ _ (Hm 0 0) (Hm 1 1) (Hm 2 2) (Hm 3 3) (Hm 4 4) D1).
    reflexivity. }
  destruct (mk c' 0 0 && mk c' 1 1 && mk c' 2 2 && mk c' 3 3 && mk c' 4 4); [reflexivity|].
  destruct (mk c 0 4 && mk c 1 3 && mk c 2 2 && mk c 3 1 && mk c 4 0) eqn:D2.
  { rewrite (conj5_mono _ _ _ _ _ _ _ _ _ _ (Hm 0 4) (Hm 1 3) (Hm 2 2) (Hm 3 1) (Hm 4 0) D2).
    reflexivity. }
  destruct (mk c' 0 4 && mk c' 1 3 && mk c' 2 2 && mk c' 3 1 && mk c' 4 0); [reflexivity|].
  destruct (mk c 0 0 && mk c 0 4 && mk c 4 0 && mk c 4 4 && mk c 2 2) eqn:D3.
  { rewrite (conj5_mono _ _ _ _ _ _ _ _ _ _ (Hm 0 0) (Hm 0 4) (Hm 4 0) (Hm 4 4) (Hm 2 2) D3).
    reflexivity. }
  discriminate.
Qed.

Lemma markPosition_mono (c : BingoCard) (row col : Z) (r k : nat) :
  mk c r k = true -> mk (fst (markPosition c row col)) r k = true.
Proof.
  unfold markPosition. destruct (_ || _ || _ || _)%Z; [tauto|]. apply mk_set_mark_mono.
Qed.

Lemma markWord_mono (c : BingoCard) (w : string) (r k : nat) :
  mk c r k = true -> mk (fst (markWord c w)) r k = true.
Proof.
  unfold markWord. destruct (find_cell c _) as [[r0 k0]|]; [apply mk_set_mark_mono|tauto].
Qed.

(** [markPosition(row, col)] with a row or a column outside 0..4 returns
    false and leaves the card as it was; inside, on a card with a 5x5 mark
    grid, it returns true, marks exactly the cell (row, col) and keeps the
    words and every other mark. *)
Theorem markPosition_bounds (c : BingoCard) (row col : Z) :
  ((row < 0 \/ 4 < row \/ col < 0 \/ 4 < col)%Z -> markPosition c row col = (c, false)) /\
  (five_by_five (marked c) -> (0 <= row <= 4)%Z -> (0 <= col <= 4)%Z ->
     snd (markPosition c row col) = true /\
     grid (fst (markPosition c row col)) = grid c /\
     forall r k, mk (fst (markPosition c row col)) r k =
                 if Nat.eqb r (Z.to_nat row) && Nat.eqb k (Z.to_nat col) then true
                 else mk c r k).
Proof.
  unfold markPosition. split.
  - intros Hout.
    destruct (Z.ltb_spec row 0), (Z.ltb_spec 4 row), (Z.ltb_spec col 0), (Z.ltb_spec 4 col);
      simpl; try reflexivity; lia.
  - intros H5 Hr Hc.
    destruct (Z.ltb_spec row 0), (Z.ltb_spec 4 row), (Z.ltb_spec col 0), (Z.ltb_spec 4 col);
      try lia; simpl.
    split; [reflexivity|]. split.
    + unfold set_mark. destruct (marked c !! _); reflexivity.
    + intros r k. apply mk_set_mark_at; [exact H5|lia|lia].
Qed.

(** [markWord] never clears a mark and never changes the card's id,
    player or words; a cell it newly marks holds the word, compared
    trimmed and case-insensitively. *)
Theorem markWord_only_adds_matching_mark (c : BingoCard) (w : string) :
  id (fst (markWord c w)) = id c /\ playerId (fst (markWord c w)) = playerId c /\
  grid (fst (markWord c w)) = grid c /\
  (forall r k, mk c r k = true -> mk (fst (markWord c w)) r k = true) /\
  (forall r k, mk (fst (markWord c w)) r k = true -> mk c r k = false ->
     r < 5 /\ k < 5 /\ toLowerCase (cell c r k) = toLowerCase (trim w)).
Proof.
  assert (Hkeep : forall r0 k0, id (set_mark c r0 k0) = id c /\
            playerId (set_mark c r0 k0) = playerId c /\ grid (set_mark c r0 k0) = grid c).
  { intros r0 k0. unfold set_mark. destruct (marked c !! r0); auto. }
  split; [|split; [|split; [|split]]].
  - unfold markWord. destruct (find_cell c _) as [[r0 k0]|]; [apply Hkeep|reflexivity].
  - unfold markWord. destruct (find_cell c _) as [[r0 k0]|]; [apply Hkeep|reflexivity].
  - unfold markWord. destruct (find_cell c _) as [[r0 k0]|]; [apply Hkeep|reflexivity].
  - intros r k. apply markWord_mono.
  - intros r k. unfold markWord.
    destruct (find_cell c (toLowerCase (trim w))) as [[r0 k0]|] eqn:Hf; simpl;
      [|congruence].
    intros Hm Hn. apply mk_set_mark_new in Hm as [Hm|[-> ->]]; [congruence|].
    unfold find_cell in Hf. apply find_some in Hf as [Hin Heq].
    apply in_prod_iff in Hin as [Hr Hc]. apply in_seq in Hr, Hc.
    apply String.eqb_eq in Heq. split; [lia|]. split; [lia|exact Heq].
Qed.

(** A card that has won stays won after any further [markWord] or
    [markPosition]. *)
Theorem won_card_stays_won (c : BingoCard) :
  hasWon c = true ->
  (forall w, hasWon (fst (markWord c w)) = true) /\
  (forall row col, hasWon (fst (markPosition c row col)) = true).
Proof.
  intros Hw. split.
  - intros w. apply (hasWon_mono c); [|exact Hw]. intros r k. apply markWord_mono.
  - intros row col. apply (hasWon_mono c); [|exact Hw]. intros r k. apply markPosition_mono.
Qed.

Lemma initial_marked_no_pattern (c : BingoCard) :
  marked c = initial_marked -> getWinningPattern c = None.
Proof.
  intros Hm. unfold getWinningPattern, row_full, col_full, mk. rewrite Hm. reflexivity.
Qed.

(** A card returned by [BingoCard.generate] has not won: only the centre
    is marked, and no pattern is complete. *)
Theorem generated_card_not_won (rnd : nat -> Q) (uuid pid : string)
    (wordList : list string) (c : BingoCard) :
  generate rnd uuid pid wordList = Ok c ->
  getWinningPattern c = None /\ hasWon c = false.
Proof.
  unfold generate. destruct (length (cleanWords wordList) <? 24); [discriminate|].
  injection 1 as <-. unfold hasWon. rewrite initial_marked_no_pattern by reflexivity.
  split; reflexivity.
Qed.

Lemma markPosition_bounds_witness :
  markPosition sample_card 5 0 = (sample_card, false) /\
  mk (fst (markPosition sample_card 1 3)) 1 3 = true.
Proof.
  split.
  - apply (proj1 (markPosition_bounds sample_card 5 0)). lia.
  - destruct (proj2 (markPosition_bounds sample_card 1 3)) as (_ & _ & Hmk);
      [split; [reflexivity | repeat constructor] | lia | lia |].
    rewrite Hmk. reflexivity.
Defined.

Lemma won_card_stays_won_witness :
  hasWon Samples.won_sample = true /\ hasWon (fst (markWord Samples.won_sample "golf")) = true.
Proof.
  assert (Hw : hasWon Samples.won_sample = true) by reflexivity.
  split; [exact Hw|]. exact (proj1 (won_card_stays_won Samples.won_sample Hw) "golf").
Defined.

Lemma generated_card_not_won_witness :
  exists c, generate (fun _ => 0%Q) "card-1" "player-1" words_with_free = Ok c /\
            hasWon c = false.
Proof.
  destruct (generate (fun _ => 0%Q) "card-1" "player-1" words_with_free) as [c|e] eqn:Hg.
  - exists c. split; [reflexivity|]. exact (proj2 (generated_card_not_won _ _ _ _ _ Hg)).
  - vm_compute in Hg. discriminate.
Defined.

End CardMoreProofs.

Module RoundProofs.
Import Card Game ExtraSpec.

(** Round number, history and winner of the game before and after a
    successful [markWord]. *)
Lemma markWord_rounds (now : Z) (pid word : string) (g g' : BingoGame) (r : MarkResult) :
  markWord now pid word g = Ok (g', r) ->
  currentRound g' = currentRound g /\ roundWinners g' = roundWinners g /\
  ((status g' = status g /\ currentWinner g' = currentWinner g) \/
   (status g = Active /\ status g' = Finished /\
    exists w, currentWinner g' = Some w /\ w_roundNumber w = currentRound g)).
Proof.
  unfold markWord. destruct (status g) eqn:Hs; try discriminate;
    [|injection 1 as <- _; auto].
  destruct (cards g !! pid) as [card|]; [|injection 1 as <- _; auto].
  destruct (Card.markWord card word) as [card' []]; simpl;
    [|injection 1 as <- _; auto].
  destruct (hasWon card'); [destruct (getWinningPattern card')|];
    injection 1 as <- _; simpl; rewrite ?Hs; auto.
  split; [reflexivity|]. split; [reflexivity|]. right. eauto 6.
Qed.

(** A mark that does not succeed changes nothing in the game. *)
Lemma markWord_failed_unchanged (now : Z) (pid word : string) (g g' : BingoGame)
    (r : MarkResult) :
  markWord now pid word g = Ok (g', r) -> success r = false -> g' = g.
Proof.
  unfold markWord. destruct (status g); try discriminate; [|injection 1 as <- _; auto].
  destruct (cards g !! pid) as [card|]; [|injection 1 as <- _; auto].
  destruct (Card.markWord card word) as [card' []]; simpl;
    [|injection 1 as <- _; auto].
  destruct (hasWon card'); [destruct (getWinningPattern card')|];
    injection 1 as _ <-; discriminate.
Qed.

(** [BingoGame.markWord] changes the game only when it reports
    [success: true]: before the start it throws; in a finished round, for
    a player without a card, or for a word not on the player's card, it
    returns [success: false] and leaves the game (status, round, cards,
    winner, history) as it was. *)
Theorem markWord_unsuccessful_keeps_game (now : Z) (pid word : string) (g : BingoGame) :
  (status g = Waiting -> markWord now pid word g = Err MarkBeforeStart) /\
  (forall g' r, markWord now pid word g = Ok (g', r) -> success r = false -> g' = g).
Proof.
  split.
  - intros Hw. unfold markWord. rewrite Hw. reflexivity.
  - intros g' r. apply markWord_failed_unchanged.
Qed.

Lemma markWord_unsuccessful_keeps_game_witness :
  status Samples.fresh_game = Waiting /\
  markWord 5%Z "player-1" "alpha" Samples.fresh_game = Err MarkBeforeStart /\
  markWord 5%Z "player-1" "alpha" Samples.finished_game =
    Ok (Samples.finished_game, rejected true).
Proof.
  assert (Hw : status Samples.fresh_game = Waiting) by reflexivity.
  split; [exact Hw|]. split.
  - exact (proj1 (markWord_unsuccessful_keeps_game 5%Z "player-1" "alpha" _) Hw).
  - destruct (markWord 5%Z "player-1" "alpha" Samples.finished_game) as [[g' r]|e] eqn:Hm;
      [|vm_compute in Hm; discriminate].
    assert (Hr : r = rejected true)
      by (vm_compute in Hm; injection Hm as _ <-; reflexivity).
    subst r.
    rewrite (proj2 (markWord_unsuccessful_keeps_game 5%Z "player-1" "alpha" _) g' _ Hm
               eq_refl).
    reflexivity.
Defined.

(** [startNewRound()] succeeds only on a finished round; it then keeps
    every round winner ([getRoundWinners()] is unchanged: the round's
    winner moves into the history), clears the cards, clears the current
    winner and starts round n + 1 as active. *)
Theorem startNewRound_keeps_round_winners (g g' : BingoGame) :
  startNewRound g = Ok g' ->
  status g = Finished /\ getRoundWinners g' = getRoundWinners g /\
  currentRound g' = S (currentRound g) /\ status g' = Active /\
  cards g' = ∅ /\ currentWinner g' = None.
Proof.
  unfold startNewRound. destruct (status g) eqn:Hs; try discriminate.
  injection 1 as <-. unfold getRoundWinners. simpl.
  destruct (currentWinner g); repeat split; reflexivity.
Qed.

Lemma startNewRound_keeps_round_winners_witness :
  exists g', startNewRound Samples.finished_game = Ok g' /\
             getRoundWinners g' = getRoundWinners Samples.finished_game.
Proof.
  destruct (startNewRound Samples.finished_game) as [g'|e] eqn:Hs; [|discriminate].
  exists g'. split; [reflexivity|].
  exact (proj1 (proj2 (startNewRound_keeps_round_winners _ _ Hs))).
Defined.

Lemma generateCardForPlayer_rounds (rnd : nat -> Q) (uuid pid : string)
    (g g' : BingoGame) (c : BingoCard) :
  generateCardForPlayer rnd uuid pid g = Ok (g', c) ->
  status g' = status g /\ currentRound g' = currentRound g /\
  currentWinner g' = currentWinner g /\ roundWinners g' = roundWinners g.
Proof.
  unfold generateCardForPlayer. destruct (status g); [discriminate| |];
    (destruct (Card.generate rnd uuid pid (wordList g)); [|discriminate]);
    injection 1 as <- _; auto.
Qed.

Lemma rounds_inv_op (o : op) (g : BingoGame) : rounds_inv g -> rounds_inv (run_op o g).
Proof.
  intros Hi. pose proof Hi as (Hw & Hn & Hwin & Hnum & Hhist).
  destruct o as [| |rnd uuid pid|now pid word]; simpl.
  - unfold start. destruct (status g) eqn:Hs; [|exact Hi|exact Hi].
    unfold rounds_inv; simpl. rewrite (Hw eq_refl) in Hhist.
    split; [discriminate|]. split; [intros; lia|].
    assert (Hc : currentWinner g = None) by (apply Hwin; discriminate).
    rewrite Hc. split; [split; [discriminate|auto]|]. split; [discriminate|exact Hhist].
  - unfold startNewRound. destruct (status g) eqn:Hs; [exact Hi|exact Hi|].
    unfold rounds_inv; simpl.
    split; [discriminate|]. split; [intros; lia|]. split; [split; [discriminate|auto]|].
    split; [discriminate|].
    destruct (currentWinner g) as [w|] eqn:Hc; [|exfalso; apply (proj1 Hwin eq_refl); reflexivity].
    rewrite map_app, Hhist. simpl. rewrite (Hnum w eq_refl).
    assert (H1 : 1 <= currentRound g) by (apply Hn; congruence).
    destruct (currentRound g) as [|n]; [lia|]. rewrite ?Nat.sub_0_r, seq_S.
    replace (S n - 1) with n by lia. reflexivity.
  - destruct (generateCardForPlayer rnd uuid pid g) as [[g' c]|e] eqn:Hgen; [|exact Hi].
    apply generateCardForPlayer_rounds in Hgen as (Hs & Hr & Hc & Hh).
    unfold rounds_inv. rewrite Hs, Hr, Hc, Hh. exact Hi.
  - destruct (markWord now pid word g) as [[g' r]|e] eqn:Hm; [|exact Hi].
    apply markWord_rounds in Hm as (Hr & Hh & [[Hs Hc]|(HA & HF & w & Hc & Hwn)]).
    + unfold rounds_inv. rewrite Hr, Hh, Hs, Hc. exact Hi.
    + unfold rounds_inv. rewrite Hr, Hh, HF, Hc.
      split; [discriminate|]. split; [intros _; apply Hn; congruence|].
      split; [split; [discriminate|congruence]|]. split; [|exact Hhist].
      intros w' Hw'. injection Hw' as <-. exact Hwn.
Qed.

(** In every game reachable from a new one, [getRoundWinners()] lists one
    winner per decided round, in round order: their round numbers are
    exactly 1, 2, ..., k, where k is the current round when it is
    finished and the number of rounds before it otherwise. *)
Theorem round_winners_numbered (g : BingoGame) :
  reachable g ->
  map w_roundNumber (getRoundWinners g) = seq 1 (completed_rounds g).
Proof.
  intros Hr.
  assert (Hi : rounds_inv g).
  { induction Hr as [sid wl g Hnew|o g Hr IH].
    - unfold new in Hnew. destruct (length (cleanWords wl) <? 24); [discriminate|].
      injection Hnew as <-. unfold rounds_inv; simpl.
      split; [auto|]. split; [congruence|].
      split; [split; [discriminate|auto]|]. split; [discriminate|reflexivity].
    - apply rounds_inv_op, IH. }
  destruct Hi as (Hw & Hn & Hwin & Hnum & Hhist).
  unfold getRoundWinners, completed_rounds.
  destruct (currentWinner g) as [w|] eqn:Hc.
  - assert (Hf : status g = Finished).
    { destruct (status g); [| |reflexivity]; exfalso;
        assert (Hx : Some w = None) by (apply Hwin; discriminate); discriminate. }
    rewrite Hf, map_app, Hhist. simpl. rewrite (Hnum w eq_refl).
    assert (H1 : 1 <= currentRound g) by (apply Hn; congruence).
    destruct (currentRound g) as [|n]; [lia|]. rewrite ?Nat.sub_0_r, seq_S.
    replace (S n - 1) with n by lia. reflexivity.
  - assert (Hf : status g <> Finished) by (apply Hwin; reflexivity).
    destruct (status g); [exact Hhist|exact Hhist|congruence].
Qed.

Lemma round_winners_numbered_witness :
  reachable Samples.fresh_game /\
  map w_roundNumber (getRoundWinners Samples.fresh_game) = [].
Proof.
  assert (Hr : reachable Samples.fresh_game).
  { apply (reach_new "session-1" CardSpec.words_with_free). vm_compute. reflexivity. }
  split; [exact Hr|]. exact (round_winners_numbered _ Hr).
Defined.

End RoundProofs.

Module LeaderboardProofs.
Import Session ExtraSpec.

Lemma insert_by_points_perm (x : LeaderboardEntry) (l : list LeaderboardEntry) :
  insert_by_points x l ≡ₚ x :: l.
Proof.
  induction l as [|y l IH]; simpl; [reflexivity|].
  destruct (le_totalPoints y <? le_totalPoints x); [reflexivity|].
  rewrite IH. apply perm_swap.
Qed.

Lemma insert_by_points_Forall (P : LeaderboardEntry -> Prop) x l :
  P x -> Forall P l -> Forall P (insert_by_points x l).
Proof.
  intros Hx. induction l as [|y l IH]; simpl; intros Hl; [constructor; auto|].
  inversion Hl as [|? ? Hy Hl']; subst.
  destruct (le_totalPoints y <? le_totalPoints x); repeat constructor; auto.
Qed.

Lemma insert_by_points_sorted x l :
  StronglySorted by_points l -> StronglySorted by_points (insert_by_points x l).
Proof.
  induction l as [|y l IH]; simpl; intros Hs; [repeat constructor|].
  apply StronglySorted_inv in Hs as [Hs Hy].
  destruct (Nat.ltb_spec (le_totalPoints y) (le_totalPoints x)) as [Hlt|Hge].
  - constructor; [constructor; assumption|].
    constructor; [unfold by_points; lia|].
    eapply Forall_impl; [exact Hy|]. unfold by_points. intros z Hz. lia.
  - constructor; [apply IH, Hs|].
    apply insert_by_points_Forall; [unfold by_points; lia | exact Hy].
Qed.

Lemma with_points_below (n : nat) (l : list LeaderboardEntry) :
  Forall (fun z => le_totalPoints z < n) l -> with_points n l = [].
Proof.
  induction 1 as [|z l Hz _ IH]; simpl; [reflexivity|].
  destruct (Nat.eqb_spec (le_totalPoints z) n); [lia|exact IH].
Qed.

Lemma with_points_cons n z l :
  with_points n (z :: l) =
  if Nat.eqb (le_totalPoints z) n then z :: with_points n l else with_points n l.
Proof. reflexivity. Qed.

Lemma insert_by_points_with_points n x l :
  StronglySorted by_points l ->
  with_points n (insert_by_points x l) = with_points n l ++ with_points n [x].
Proof.
  induction l as [|y l IH]; intros Hs; [reflexivity|].
  apply StronglySorted_inv in Hs as [Hs Hy]. cbn [insert_by_points].
  rewrite (with_points_cons n x []).
  destruct (Nat.ltb_spec (le_totalPoints y) (le_totalPoints x)) as [Hlt|Hge].
  - rewrite with_points_cons. destruct (Nat.eqb_spec (le_totalPoints x) n) as [<-|Hn].
    + rewrite (with_points_below _ (y :: l)); [reflexivity|].
      constructor; [exact Hlt|].
      eapply Forall_impl; [exact Hy|]. unfold by_points. intros z Hz. lia.
    + rewrite app_nil_r. reflexivity.
  - rewrite !with_points_cons, (IH Hs), (with_points_cons n x []).
    destruct (Nat.eqb (le_totalPoints y) n); reflexivity.
Qed.

Lemma sort_fold (l acc : list LeaderboardEntry) :
  StronglySorted by_points acc ->
  let r := fold_left (fun acc x => insert_by_points x acc) l acc in
  StronglySorted by_points r /\ r ≡ₚ acc ++ l /\
  forall n, with_points n r = with_points n acc ++ with_points n l.
Proof.
  revert acc. induction l as [|x l IH]; intros acc Hs; simpl.
  - rewrite !app_nil_r. split; [exact Hs|]. split; [reflexivity|].
    intros n. symmetry. apply app_nil_r.
  - destruct (IH (insert_by_points x acc) (insert_by_points_sorted x acc Hs))
      as (Hs' & Hp & Hf).
    split; [exact Hs'|]. split.
    + rewrite Hp. etransitivity; [apply Permutation_app_tail, insert_by_points_perm|].
      simpl. apply Permutation_middle.
    + intros n. rewrite Hf, insert_by_points_with_points by exact Hs.
      rewrite <- app_assoc, with_points_cons. cbn [with_points List.filter].
      destruct (Nat.eqb (le_totalPoints x) n); reflexivity.
Qed.

(** [getLeaderboard()] has one entry per player (a permutation of the
    entries built in [this.players] order), sorted by total points from
    highest to lowest, and players with equal points keep their order in
    [this.players] (the sort is stable). *)
Theorem getLeaderboard_sorted_stable (W : Type) (s : Session W) :
  let entries := map (fun '(_, player) => board_entry (scores W s) player) (players W s) in
  getLeaderboard s ≡ₚ entries /\
  Sorted (fun a b => le_totalPoints b <= le_totalPoints a) (getLeaderboard s) /\
  forall n, List.filter (fun e => Nat.eqb (le_totalPoints e) n) (getLeaderboard s) =
            List.filter (fun e => Nat.eqb (le_totalPoints e) n) entries.
Proof.
  intros entries. unfold getLeaderboard, sort_by_points. fold entries.
  destruct (sort_fold entries [] (SSorted_nil _)) as (Hs & Hp & Hf).
  split; [exact Hp|]. split.
  - apply StronglySorted_Sorted, Hs.
  - intros n. exact (Hf n).
Qed.

End LeaderboardProofs.

Module SessionInvProofs.
Import JsString Card Game Session ExtraSpec.

Section WithWorld.
Variable W : Type.

Lemma keeps_inv_of {A} (m : M W A) : keeps_roster W m -> keeps_inv W m.
Proof.
  intros Hk env st (Hp & Hs). destruct (Hk env st) as [E1 E2].
  unfold session_inv, players_ok, scores_ok in *. rewrite E1, E2. auto.
Qed.

Lemma keeps_inv_at {A} (m : M W A) env st :
  keeps_inv W m -> session_inv W (sess W st) -> session_inv W (sess W (fst (m env st))).
Proof. intros Hk. apply Hk. Qed.

Lemma bind_keeps_roster {A B} (m : M W A) (k : A -> M W B) :
  keeps_roster W m -> (forall a, keeps_roster W (k a)) -> keeps_roster W (bind m k).
Proof.
  intros Hm Hk env st. unfold bind. destruct (Hm env st) as [E1 E2].
  destruct (m env st) as [st' [a|e]]; simpl in *; [|auto].
  destruct (Hk a env st') as [F1 F2]. rewrite F1, F2. auto.
Qed.

Lemma bind_keeps_inv {A B} (m : M W A) (k : A -> M W B) :
  keeps_inv W m -> (forall a, keeps_inv W (k a)) -> keeps_inv W (bind m k).
Proof.
  intros Hm Hk env st Hi. unfold bind. pose proof (Hm env st Hi) as Hi'.
  destruct (m env st) as [st' [a|e]]; simpl in *; [apply Hk|]; exact Hi'.
Qed.

Lemma ret_roster {A} (a : A) : keeps_roster W (ret a).
Proof. intros env st. split; reflexivity. Qed.

Lemma throw_roster {A} (e : error) : keeps_roster W (A:=A) (throw e).
Proof. intros env st. split; reflexivity. Qed.

Lemma gets_roster {A} (f : Session W -> A) : keeps_roster W (gets f).
Proof. intros env st. split; reflexivity. Qed.

Lemma fresh_uuid_roster : keeps_roster W fresh_uuid.
Proof. intros env st. split; reflexivity. Qed.

Lemma date_now_roster : keeps_roster W date_now.
Proof. intros env st. split; reflexivity. Qed.

Lemma emit_roster (ev : GameEvent) : keeps_roster W (emit ev).
Proof. intros env st. split; reflexivity. Qed.

Lemma new_game_roster : keeps_roster W new_game.
Proof.
  intros env st. unfold new_game. destruct (Game.new _ _); split; reflexivity.
Qed.

Lemma game_op_roster {A} (f : BingoGame -> result error (BingoGame * A)) :
  keeps_roster W (game_op f).
Proof.
  intros env st. unfold game_op. destruct (game W (sess W st)) as [g|]; [|split; reflexivity].
  destruct (f g) as [[g' a]|e]; split; reflexivity.
Qed.

Lemma deal_card_roster (pid : string) : keeps_roster W (deal_card pid).
Proof.
  intros env st. unfold deal_card. destruct (game W (sess W st)) as [g|]; [|split; reflexivity].
  destruct (generateCardForPlayer _ _ pid g) as [[g' c]|e]; split; reflexivity.
Qed.

Lemma for_each_roster {A} (l : list A) (body : A -> M W unit) :
  (forall a, keeps_roster W (body a)) -> keeps_roster W (for_each l body).
Proof.
  intros Hb. induction l as [|a l IH]; simpl; [apply ret_roster|].
  apply bind_keeps_roster; [apply Hb | intros _; exact IH].
Qed.

Lemma addEventListener_roster (l : EventListener W) : keeps_roster W (addEventListener W l).
Proof. intros env st. split; reflexivity. Qed.

Lemma update_inv (f : list (string * Player) -> list (string * Player))
    (h : gmap string Score -> gmap string Score) :
  (forall s, session_inv W s -> session_inv W (with_players W s (f (players W s)) (h (scores W s)))) ->
  keeps_inv W (update_players f h).
Proof. intros Hu env st Hi. apply Hu, Hi. Qed.

Lemma bind_gets_eq {A B} (f : Session W -> A) (k : A -> M W B) env st :
  bind (gets f) k env st = k (f (sess W st)) env st.
Proof. reflexivity. Qed.

Lemma bind_fresh_uuid_eq {B} (k : string -> M W B) env st :
  bind fresh_uuid k env st =
  k (uuid_at env (uuid_k W st)) env (mkSt W (sess W st) (world W st) (S (uuid_k W st)) (rnd_k W st)).
Proof. reflexivity. Qed.

Lemma bind_date_now_eq {B} (k : Z -> M W B) env st :
  bind date_now k env st = k (now env) env st.
Proof. reflexivity. Qed.

Lemma bind_update_eq {B} f h (k : unit -> M W B) env st :
  bind (update_players f h) k env st =
  k tt env (set_sess W st (with_players W (sess W st) (f (players W (sess W st)))
                                         (h (scores W (sess W st))))).
Proof. reflexivity. Qed.

End WithWorld.

Ltac roster :=
  repeat match goal with
  | |- keeps_roster _ (bind _ _) => apply bind_keeps_roster; [|intros ?]
  | |- keeps_roster _ (ret _) => apply ret_roster
  | |- keeps_roster _ (throw _) => apply throw_roster
  | |- keeps_roster _ (gets _) => apply gets_roster
  | |- keeps_roster _ fresh_uuid => apply fresh_uuid_roster
  | |- keeps_roster _ date_now => apply date_now_roster
  | |- keeps_roster _ (emit _) => apply emit_roster
  | |- keeps_roster _ new_game => apply new_game_roster
  | |- keeps_roster _ (game_op _) => apply game_op_roster
  | |- keeps_roster _ (deal_card _) => apply deal_card_roster
  | |- keeps_roster _ (for_each _ _) => apply for_each_roster; intros []
  | |- keeps_roster _ (if ?b then _ else _) => destruct b
  | |- keeps_roster _ (match ?x with _ => _ end) => destruct x
  end.

Ltac keep_inv :=
  repeat match goal with
  | |- keeps_inv _ (bind _ _) => apply bind_keeps_inv; [|intros ?]
  | |- keeps_inv _ (update_players _ _) => fail 1
  | |- keeps_inv _ (if ?b then _ else _) => destruct b
  | |- keeps_inv _ (match ?x with _ => _ end) => destruct x
  | |- keeps_inv _ _ => apply keeps_inv_of; solve [roster]
  end.


Lemma js_map_set_In {V} (k : string) (v : V) (e : string * V) (m : list (string * V)) :
  In e (js_map_set k v m) -> e = (k, v) \/ In e m.
Proof.
  induction m as [|[k0 v0] m IH]; simpl; [intuition|].
  destruct (String.eqb k k0); simpl; intros [H|H]; auto.
  destruct (IH H); auto.
Qed.

Lemma js_map_set_Forall {V} (Q : string * V -> Prop) (k : string) (v : V) m :
  Forall Q m -> Q (k, v) -> Forall Q (js_map_set k v m).
Proof.
  intros Hm Hq. apply List.Forall_forall. intros e He.
  apply js_map_set_In in He as [->|He]; [exact Hq|].
  rewrite List.Forall_forall in Hm. exact (Hm e He).
Qed.

Lemma js_map_set_NoDup {V} (f : string * V -> string) (k : string) (v : V) m :
  NoDup (map f m) -> (forall e, In e m -> f e <> f (k, v)) ->
  NoDup (map f (js_map_set k v m)).
Proof.
  induction m as [|[k0 v0] m IH]; simpl; intros Hnd Hne.
  - constructor; [intros Hx; inversion Hx | constructor].
  - apply NoDup_cons in Hnd as [Hn Hnd].
    destruct (String.eqb k k0); simpl; constructor.
    + intros Hin. apply list_elem_of_In, in_map_iff in Hin as (e & He & Hin).
      exact (Hne e (or_intror Hin) He).
    + exact Hnd.
    + intros Hin. apply list_elem_of_In, in_map_iff in Hin as (e & He & Hin).
      apply js_map_set_In in Hin as [->|Hin].
      * exact (Hne _ (or_introl eq_refl) (eq_sym He)).
      * apply Hn, list_elem_of_In, in_map_iff. eauto.
    + apply IH; [exact Hnd|]. intros e He. apply Hne. auto.
Qed.

Lemma js_map_set_keys_iff {V} (k k' : string) (v : V) (m : list (string * V)) :
  k' ∈ map fst (js_map_set k v m) <-> k' = k \/ k' ∈ map fst m.
Proof.
  rewrite !list_elem_of_In.
  induction m as [|[k0 v0] m IH]; simpl; [intuition|].
  destruct (String.eqb_spec k k0) as [->|Hne]; simpl; [intuition|].
  rewrite IH. intuition.
Qed.

Lemma js_map_delete_keys_iff {V} (k k' : string) (m : list (string * V)) :
  k' ∈ map fst (js_map_delete k m) <-> k <> k' /\ k' ∈ map fst m.
Proof.
  rewrite !list_elem_of_In.
  induction m as [|[k0 v0] m IH]; simpl; [intuition|].
  destruct (String.eqb_spec k k0) as [->|Hne]; simpl; rewrite IH; intuition congruence.
Qed.

Lemma NoDup_map_filter {A B} (f : A -> B) (g : A -> bool) (l : list A) :
  NoDup (map f l) -> NoDup (map f (List.filter g l)).
Proof.
  induction l as [|a l IH]; simpl; intros Hnd; [exact Hnd|].
  apply NoDup_cons in Hnd as [Hn Hnd].
  destruct (g a); simpl; [|apply IH, Hnd].
  constructor; [|apply IH, Hnd].
  intros Hin. apply Hn. apply list_elem_of_In in Hin. apply list_elem_of_In.
  apply in_map_iff in Hin as (x & Hx & Hin). apply filter_In in Hin as [Hin _].
  apply in_map_iff. eauto.
Qed.

Section Ops.
Variable W : Type.

Lemma removePlayer_inv (pid : string) : keeps_inv W (removePlayer W pid).
Proof.
  unfold removePlayer. keep_inv.
  apply update_inv. intros s ((Hf & Hnd) & (Hdom & Hsc)).
  unfold session_inv, players_ok, scores_ok. cbn [with_players players scores].
  split; split.
  - apply List.Forall_forall. intros e Hin. unfold js_map_delete in Hin.
    apply filter_In in Hin as [Hin _]. rewrite List.Forall_forall in Hf. exact (Hf e Hin).
  - apply NoDup_map_filter, Hnd.
  - intros k. rewrite lookup_delete_is_Some, js_map_delete_keys_iff, Hdom. reflexivity.
  - apply map_Forall_delete, Hsc.
Qed.

Lemma credit_inv (wid : string) (rn : nat) :
  keeps_inv W (update_players (fun ps0 => ps0)
                 (fun sc => match sc !! wid with
                            | Some s0 => <[wid:=credit_win rn s0]> sc
                            | None => sc
                            end)).
Proof.
  apply update_inv. intros s ((Hf & Hnd) & (Hdom & Hsc)).
  unfold session_inv, players_ok, scores_ok. cbn [with_players players scores].
  split; [split; assumption|].
  destruct (scores W s !! wid) as [s0|] eqn:E; [|split; assumption].
  split.
  - intros k. rewrite lookup_insert_is_Some', <- Hdom.
    split; [intros [<-|H]; [rewrite E; eauto|exact H] | intros H; right; exact H].
  - apply map_Forall_insert_2; [|exact Hsc].
    destruct (Hsc wid s0 E) as [Ht Hl]. unfold credit_win; simpl.
    split; [lia|]. split; [discriminate|lia].
Qed.

Lemma addPlayer_inv (name : string) : keeps_inv W (addPlayer W name).
Proof.
  intros env st Hi. unfold addPlayer.
  destruct (String.eqb (trim name) "") eqn:Eb; [exact Hi|].
  rewrite bind_gets_eq.
  match goal with |- context [existsb ?f ?l] => destruct (existsb f l) eqn:Ex end;
    [exact Hi|].
  rewrite bind_fresh_uuid_eq, bind_date_now_eq, bind_update_eq.
  eapply keeps_inv_at; [keep_inv|].
  destruct Hi as ((Hf & Hnd) & (Hdom & Hsc)).
  unfold session_inv, players_ok, scores_ok. cbn [set_sess sess with_players players scores].
  apply String.eqb_neq in Eb.
  split; split.
  - apply js_map_set_Forall; [exact Hf|]. simpl. auto.
  - apply js_map_set_NoDup; [exact Hnd|]. intros [k p] Hin Heq. simpl in Heq.
    assert (Hx : existsb (fun '(_, p) => String.eqb (toLowerCase (screenName p))
                                           (toLowerCase (trim name)))
                         (players W (sess W st)) = true).
    { apply existsb_exists. exists (k, p). split; [exact Hin|].
      apply String.eqb_eq. exact Heq. }
    congruence.
  - intros k. rewrite lookup_insert_is_Some', js_map_set_keys_iff, Hdom.
    split; intros [H|H]; auto.
  - apply map_Forall_insert_2; [|exact Hsc]. simpl. split; [reflexivity|]. split; auto.
Qed.

Lemma run_sop_inv (o : sop W) : keeps_inv W (run_sop W o).
Proof.
  destruct o as [name|pid| | |pid word|l]; simpl.
  - apply bind_keeps_inv; [apply addPlayer_inv | intros; apply keeps_inv_of, ret_roster].
  - apply removePlayer_inv.
  - apply keeps_inv_of. unfold startGame. roster.
  - apply keeps_inv_of. unfold startNewRound. roster.
  - apply bind_keeps_inv; [|intros; apply keeps_inv_of, ret_roster].
    unfold markWord. keep_inv. apply credit_inv.
  - apply keeps_inv_of, addEventListener_roster.
Qed.

Lemma session_inv_reachable (sid : string) (wl : list string) (s : Session W) (w : W)
    (st : St W) :
  new_session W sid wl = Ok s -> sreach W (mkSt W s w 0 0) st -> session_inv W (sess W st).
Proof.
  intros Hnew Hr. unfold new_session in Hnew. destruct (Game.new "validate" wl); [|discriminate].
  injection Hnew as <-.
  induction Hr as [|o env st Hr IH].
  - unfold session_inv, players_ok, scores_ok; simpl.
    split; [split; constructor|]. split; [|apply map_Forall_empty].
    intros k. rewrite lookup_empty. split; [intros [? H]; discriminate | intros H; inversion H].
  - apply run_sop_inv, IH.
Qed.

End Ops.

(** In every state a session reaches from its construction, each player
    is stored under its own id, every screen name is non-blank, and no
    two players' screen names are equal up to case ([addPlayer] trims the
    name and refuses a blank or taken one; [removePlayer] only deletes). *)
Theorem session_players_unique (W : Type) (sid : string) (wl : list string)
    (s : Session W) (w : W) (st : St W) :
  new_session W sid wl = Ok s -> sreach W (mkSt W s w 0 0) st ->
  players_ok W (sess W st).
Proof. intros Hn Hr. exact (proj1 (session_inv_reachable W sid wl s w st Hn Hr)). Qed.

(** In every state a session reaches from its construction, exactly the
    current players have a score, and each score holds 100 points per
    round won, with a last winning round recorded iff the player won a
    round. *)
Theorem session_scores_consistent (W : Type) (sid : string) (wl : list string)
    (s : Session W) (w : W) (st : St W) :
  new_session W sid wl = Ok s -> sreach W (mkSt W s w 0 0) st ->
  scores_ok W (sess W st).
Proof. intros Hn Hr. exact (proj2 (session_inv_reachable W sid wl s w st Hn Hr)). Qed.

Lemma session_players_unique_witness :
  new_session unit "session-1" CardSpec.words_with_free
    = Ok (mkSession unit "session-1" CardSpec.words_with_free [] None [] ∅) /\
  players_ok unit (mkSession unit "session-1" CardSpec.words_with_free [] None [] ∅).
Proof.
  assert (Hn : new_session unit "session-1" CardSpec.words_with_free
    = Ok (mkSession unit "session-1" CardSpec.words_with_free [] None [] ∅))
    by (vm_compute; reflexivity).
  split; [exact Hn|].
  exact (session_players_unique unit _ _ _ tt _ Hn (sreach_refl _ _)).
Defined.

Lemma session_scores_consistent_witness :
  new_session unit "session-1" CardSpec.words_with_free
    = Ok (mkSession unit "session-1" CardSpec.words_with_free [] None [] ∅) /\
  scores_ok unit (mkSession unit "session-1" CardSpec.words_with_free [] None [] ∅).
Proof.
  assert (Hn : new_session unit "session-1" CardSpec.words_with_free
    = Ok (mkSession unit "session-1" CardSpec.words_with_free [] None [] ∅))
    by (vm_compute; reflexivity).
  split; [exact Hn|].
  exact (session_scores_consistent unit _ _ _ tt _ Hn (sreach_refl _ _)).
Defined.

End SessionInvProofs.

Module RelayMoreProofs.
Import Json RelayProtocol Relay ExtraSpec.

Lemma sendToAdmin_reg (m : RelayMessage) (st : RelayState) :
  adminRegistered (sendToAdmin m st) = adminRegistered st.
Proof. unfold sendToAdmin. destruct (adminWs st); [destruct (is_open st _)|]; reflexivity. Qed.

Lemma fold_sendToPlayer_reg (f : frame) (l : list socket) (st : RelayState) :
  adminRegistered (fold_left (fun st' ws => sendToPlayer ws f st') l st) = adminRegistered st.
Proof.
  revert st. induction l as [|ws l IH]; intros st; simpl; [reflexivity|].
  rewrite IH. unfold sendToPlayer. destruct (is_open st ws); reflexivity.
Qed.

Lemma send_to_all_reg (f : frame) (st : RelayState) :
  adminRegistered (send_to_all f st) = adminRegistered st.
Proof. apply fold_sendToPlayer_reg. Qed.

Lemma on_message_reg secret JSON_text h data st :
  adminRegistered st = false ->
  adminRegistered (on_message secret JSON_text h data st) = true ->
  h = AdminMessageHandler /\
  exists sid, parseRelayMessage (JSON_text data) = Some (AdminRegister sid secret).
Proof.
  intros Hreg. destruct h as [|ws|cid|ws cid]; cbn [on_message]; try congruence.
  - unfold handleAdminMessage.
    destruct (parseRelayMessage (JSON_text data)) as [msg|] eqn:Hp; [|congruence].
    rewrite Hreg. cbn [negb].
    destruct msg as [sid sec| | | | | | | |]; try (rewrite sendToAdmin_reg; congruence).
    destruct (String.eqb sec secret) eqn:Heq.
    + apply String.eqb_eq in Heq. subst sec.
      intros _. split; [reflexivity|]. exists sid. reflexivity.
    + rewrite sendToAdmin_reg. congruence.
  - rewrite sendToAdmin_reg. congruence.
Qed.

Lemma fold_on_message_reg secret JSON_text data (l : list handler) st :
  adminRegistered st = false ->
  adminRegistered (fold_left (fun st' h => on_message secret JSON_text h data st') l st) = true ->
  In AdminMessageHandler l /\
  exists sid, parseRelayMessage (JSON_text data) = Some (AdminRegister sid secret).
Proof.
  revert st. induction l as [|h l IH]; intros st Hreg; simpl; [congruence|].
  destruct (adminRegistered (on_message secret JSON_text h data st)) eqn:Hr.
  - intros _. destruct (on_message_reg _ _ _ _ _ Hreg Hr) as [-> Hs]. auto.
  - intros H. destruct (IH _ Hr H) as [Hin Hs]. auto.
Qed.

Lemma on_close_reg h st :
  adminRegistered st = false -> adminRegistered (on_close h st) = false.
Proof.
  intros Hreg. destruct h as [|ws|cid|ws cid]; cbn [on_close]; try exact Hreg.
  - destruct (adminWs st); [|exact Hreg]. destruct (Nat.eqb ws s); [|exact Hreg].
    rewrite send_to_all_reg. reflexivity.
  - rewrite sendToAdmin_reg. exact Hreg.
Qed.

Lemma fold_on_close_reg (l : list handler) st :
  adminRegistered st = false ->
  adminRegistered (fold_left (fun st' h => on_close h st') l st) = false.
Proof.
  revert st. induction l as [|h l IH]; intros st Hreg; simpl; [exact Hreg|].
  apply IH, on_close_reg, Hreg.
Qed.

(** The relay marks its admin registered only on an [admin_register]
    envelope carrying the relay's secret, received on a socket that has
    the admin message listener: no other event (a connection, a player's
    message, a close, a wrong secret, any other envelope) registers it. *)
Theorem registration_requires_secret (secret : string) (uuid_at : nat -> string)
    (JSON_text : string -> text) (ev : event) (st : RelayState) :
  adminRegistered st = false ->
  adminRegistered (step secret uuid_at JSON_text ev st) = true ->
  exists ws data sid, ev = Message ws data /\ In AdminMessageHandler (listeners_of ws st) /\
    parseRelayMessage (JSON_text data) = Some (AdminRegister sid secret).
Proof.
  intros Hreg. destruct ev as [ws|ws|ws data|ws]; cbn [step].
  - unfold handleAdminConnection. intros H.
    destruct (adminWs st); [destruct (is_open st s)|]; simpl in H; congruence.
  - unfold handlePlayerConnection. rewrite Hreg. intros H.
    destruct (adminWs st); simpl in H; congruence.
  - destruct (is_open st ws); [|congruence].
    intros H. destruct (fold_on_message_reg _ _ _ _ _ Hreg H) as [Hin [sid Hs]].
    exists ws, data, sid. auto.
  - destruct (is_open st ws); [|congruence].
    intros H. pose proof (fold_on_close_reg (listeners_of ws st) (close_socket ws st) Hreg).
    congruence.
Qed.

Lemma registration_requires_secret_witness :
  let JT := fun _ : string => Some (JsonObj [("envelope", JsonStr "admin_register");
                                            ("sessionId", JsonStr "s1");
                                            ("secret", JsonStr "pw")]) in
  let st := handleAdminConnection 0 init in
  adminRegistered st = false /\
  adminRegistered (step "pw" (fun _ => "c") JT (Message 0 "x") st) = true /\
  exists ws data sid, Message 0 "x" = Message ws data /\
    In AdminMessageHandler (listeners_of ws st) /\
    parseRelayMessage (JT data) = Some (AdminRegister sid "pw").
Proof.
  intros JT st.
  assert (H0 : adminRegistered st = false) by reflexivity.
  assert (H1 : adminRegistered (step "pw" (fun _ => "c") JT (Message 0 "x") st) = true)
    by (vm_compute; reflexivity).
  split; [exact H0|]. split; [exact H1|].
  exact (registration_requires_secret "pw" (fun _ => "c") JT (Message 0 "x") st H0 H1).
Defined.

Lemma with_sent_eta (st : RelayState) : with_sent st (sent st) = st.
Proof. destruct st. reflexivity. Qed.

Lemma sendToPlayer_with_sent (ws : socket) (f : frame) (st : RelayState) s :
  sendToPlayer ws f (with_sent st s) =
  if is_open st ws then with_sent st (s ++ [(ws, f)]) else with_sent st s.
Proof. reflexivity. Qed.

Lemma js_map_get_In {V} (k : string) (v : V) (m : list (string * V)) :
  Session.js_map_get k m = Some v -> In v (map snd m).
Proof.
  induction m as [|[k0 v0] m IH]; simpl; [discriminate|].
  destruct (String.eqb k k0); [injection 1 as ->; auto | intros H; right; apply IH, H].
Qed.

Lemma fold_sendToPlayer (f : frame) (st : RelayState) (l : list socket) s0 :
  exists fs,
    fold_left (fun st' ws => sendToPlayer ws f st') l (with_sent st s0) = with_sent st (s0 ++ fs) /\
    forall ws f', In (ws, f') fs -> In ws l /\ is_open st ws = true /\ f' = f.
Proof.
  revert s0. induction l as [|ws l IH]; intros s0; simpl.
  - exists []. rewrite app_nil_r. split; [reflexivity | intros ? ? []].
  - rewrite sendToPlayer_with_sent. destruct (is_open st ws) eqn:Ho.
    + destruct (IH (s0 ++ [(ws, f)])) as (fs & E & Hfs).
      exists ((ws, f) :: fs). rewrite E, <- app_assoc. split; [reflexivity|].
      intros ws' f' [Heq|Hin]; [injection Heq as <- <-; auto|].
      destruct (Hfs _ _ Hin) as (? & ? & ?). auto.
    + destruct (IH s0) as (fs & E & Hfs). exists fs. split; [exact E|].
      intros ws' f' Hin. destruct (Hfs _ _ Hin) as (? & ? & ?). auto.
Qed.

(** Once the admin is registered, an admin message changes nothing in the
    relay but the frames sent: registration, admin socket, player
    registry and listeners stay as they were, and every frame sent is the
    raw [event] string of a [downstream] or [broadcast] envelope, sent to
    an open socket of a registered player. *)
Theorem registered_admin_only_forwards (secret : string) (JSON_text : string -> text)
    (raw : string) (st : RelayState) :
  adminRegistered st = true ->
  exists fs,
    handleAdminMessage secret JSON_text raw st = with_sent st (sent st ++ fs) /\
    forall ws f, In (ws, f) fs ->
      In ws (map snd (playerConnections st)) /\ is_open st ws = true /\
      exists ev, f = Raw ev /\
        ((exists t, parseRelayMessage (JSON_text raw) = Some (Downstream t ev)) \/
         parseRelayMessage (JSON_text raw) = Some (Broadcast ev)).
Proof.
  intros Hreg.
  assert (Hnone : exists fs, st = with_sent st (sent st ++ fs) /\
                    forall ws f, In (ws, f) fs -> False).
  { exists []. rewrite app_nil_r, with_sent_eta. split; [reflexivity | intros ? ? []]. }
  unfold handleAdminMessage.
  destruct (parseRelayMessage (JSON_text raw)) as [msg|] eqn:Hp;
    [|destruct Hnone as (fs & E & Hf); exists fs; split; [exact E | intros ws f H; destruct (Hf _ _ H)]].
  rewrite Hreg. cbn [negb].
  destruct msg as [| | | | | | |t ev|ev];
    try (destruct Hnone as (fs & E & Hf); exists fs; split;
         [exact E | intros ws f H; destruct (Hf _ _ H)]).
  - destruct (Session.js_map_get t (playerConnections st)) as [pws|] eqn:Hg;
      [|destruct Hnone as (fs & E & Hf); exists fs; split;
        [exact E | intros ws f H; destruct (Hf _ _ H)]].
    unfold sendToPlayer. destruct (is_open st pws) eqn:Ho.
    + exists [(pws, Raw ev)]. split; [reflexivity|].
      intros ws f [Heq|[]]. injection Heq as <- <-.
      split; [exact (js_map_get_In _ _ _ Hg)|]. split; [exact Ho|].
      exists ev. split; [reflexivity|]. left. eauto.
    + exists []. rewrite app_nil_r, with_sent_eta. split; [reflexivity | intros ? ? []].
  - destruct (fold_sendToPlayer (Raw ev) st (map snd (playerConnections st)) (sent st))
      as (fs & E & Hfs).
    rewrite with_sent_eta in E. exists fs. split; [exact E|].
    intros ws f Hin. destruct (Hfs _ _ Hin) as (H1 & H2 & ->).
    split; [exact H1|]. split; [exact H2|]. exists ev. auto.
Qed.

Lemma registered_admin_only_forwards_witness :
  let JT := fun _ : string => Some (JsonObj [("envelope", JsonStr "broadcast");
                                            ("event", JsonStr "e")]) in
  let st := mkRelay (Some 0) true [("c1", 1)] [(1, "c1")] 1 [] [] [] in
  adminRegistered st = true /\
  exists fs, handleAdminMessage "pw" JT "x" st = with_sent st (sent st ++ fs) /\
    forall ws f, In (ws, f) fs ->
      In ws (map snd (playerConnections st)) /\ is_open st ws = true /\
      exists ev, f = Raw ev /\
        ((exists t, parseRelayMessage (JT "x") = Some (Downstream t ev)) \/
         parseRelayMessage (JT "x") = Some (Broadcast ev)).
Proof.
  intros JT st. assert (H : adminRegistered st = true) by reflexivity.
  split; [exact H|]. exact (registered_admin_only_forwards "pw" JT "x" st H).
Defined.

End RelayMoreProofs.

Module ParseProofs.
Import Json RelayProtocol Protocol ExtraSpec ProtocolProofs.

Lemma str_field_get (v : jsval) (k s : string) : str_field v k = Some s -> get v k = JStr s.
Proof. unfold str_field. destruct (get v k); congruence. Qed.

Lemma strings_inv (l : list jsval) (cs : list string) : strings l = Some cs -> l = map JStr cs.
Proof.
  revert cs. induction l as [|x l IH]; intros cs; simpl; [injection 1 as <-; reflexivity|].
  destruct x; try discriminate.
  destruct (strings l) as [cs'|] eqn:E; simpl; [|discriminate].
  injection 1 as <-. rewrite (IH cs' eq_refl). reflexivity.
Qed.

Lemma str_array_field_get (v : jsval) (k : string) (cs : list string) :
  str_array_field v k = Some cs -> get v k = JArr (map JStr cs).
Proof.
  unfold str_array_field. destruct (get v k); try discriminate.
  intros H. rewrite (strings_inv _ _ H). reflexivity.
Qed.

Ltac split_tags H e :=
  repeat match type of H with
  | context [String.eqb e ?t] =>
      let E := fresh "E" in
      destruct (String.eqb e t) eqn:E; [apply String.eqb_eq in E; subst e|]
  end.

Ltac read_fields H :=
  repeat match type of H with
  | context [str_field ?o ?k] =>
      let E := fresh "F" in destruct (str_field o k) eqn:E; cbn [option_map] in H
  | context [str_array_field ?o ?k] =>
      let E := fresh "F" in destruct (str_array_field o k) eqn:E; cbn [option_map] in H
  end.

Ltac fields_read :=
  intros k v Hin; simpl in Hin;
  repeat match type of Hin with
  | _ \/ _ => destruct Hin as [Hin|Hin]
  | False => destruct Hin
  end;
  injection Hin as <- <-;
  first [ assumption
        | apply str_field_get; assumption
        | apply str_array_field_get; assumption ].

(** [parseRelayMessage] accepts only a JSON object, and the message it
    returns is what the object's properties say: every property of the
    returned message's object literal ([envelope] and its fields) is
    present in the parsed object with that value; other properties are
    ignored. *)
Theorem parseRelayMessage_sound (raw : text) (m : RelayMessage) :
  parseRelayMessage raw = Some m ->
  exists ps, JSON_parse raw = Some (JObj ps) /\
    forall k v, In (k, v) (obj_props (relay_to_js m)) -> get (JObj ps) k = v.
Proof.
  unfold parseRelayMessage. destruct (JSON_parse raw) as [p|]; [|discriminate].
  destruct p as [| | | | |l|ps]; try (cbn; discriminate).
  intros Hpe. cbn [is_object] in Hpe.
  exists ps. split; [reflexivity|].
  destruct (get (JObj ps) "envelope") as [| | | |e| |] eqn:He; try discriminate.
  unfold parse_envelope in Hpe. split_tags Hpe e; try discriminate;
    read_fields Hpe; try discriminate; injection Hpe as <-; fields_read.
Qed.

(** [parseCommand] accepts only a JSON object, and the command it returns
    is what the object's properties say: every property of the returned
    command's object literal ([type] and its fields) is present in the
    parsed object with that value; other properties are ignored. *)
Theorem parseCommand_sound (raw : text) (c : Command) :
  parseCommand raw = Some c ->
  exists ps, JSON_parse raw = Some (JObj ps) /\
    forall k v, In (k, v) (obj_props (command_to_js c)) -> get (JObj ps) k = v.
Proof.
  unfold parseCommand. destruct (JSON_parse raw) as [p|]; [|discriminate].
  destruct p as [| | | | |l|ps]; try (cbn; discriminate).
  intros Hpe. cbn [is_object] in Hpe.
  exists ps. split; [reflexivity|].
  destruct (get (JObj ps) "type") as [| | | |t| |] eqn:He; try discriminate.
  unfold parse_command_type in Hpe. split_tags Hpe t; try discriminate;
    read_fields Hpe; try discriminate; injection Hpe as <-; fields_read.
Qed.

(** A relay envelope is never read as a player command, and a player
    command is never read as a relay envelope: each parser returns null
    on the other's serialization. *)
Theorem relay_and_command_disjoint :
  (forall m, parseCommand (serializeRelayMessage m) = None) /\
  (forall c, parseRelayMessage (serializeCommand c) = None).
Proof.
  split.
  - intros m. unfold parseCommand, serializeRelayMessage, JSON_stringify.
    change (JSON_parse (Some (stringify_value (relay_to_js m))))
      with (Some (of_json (stringify_value (relay_to_js m)))).
    rewrite relay_json. destruct m; reflexivity.
  - intros c. unfold parseRelayMessage, serializeCommand, JSON_stringify.
    change (JSON_parse (Some (stringify_value (command_to_js c))))
      with (Some (of_json (stringify_value (command_to_js c)))).
    rewrite command_json. destruct c; reflexivity.
Qed.

Lemma parseRelayMessage_sound_witness :
  parseRelayMessage (Some (JsonObj [("envelope", JsonStr "broadcast"); ("event", JsonStr "e");
                                    ("extra", JsonNull)])) = Some (Broadcast "e") /\
  exists ps, JSON_parse (Some (JsonObj [("envelope", JsonStr "broadcast"); ("event", JsonStr "e");
                                        ("extra", JsonNull)])) = Some (JObj ps) /\
    forall k v, In (k, v) (obj_props (relay_to_js (Broadcast "e"))) -> get (JObj ps) k = v.
Proof.
  assert (H : parseRelayMessage (Some (JsonObj [("envelope", JsonStr "broadcast");
                 ("event", JsonStr "e"); ("extra", JsonNull)])) = Some (Broadcast "e"))
    by reflexivity.
  split; [exact H | exact (parseRelayMessage_sound _ _ H)].
Defined.

Lemma parseCommand_sound_witness :
  parseCommand (Some (JsonObj [("type", JsonStr "join"); ("screenName", JsonStr "Ann");
                               ("extra", JsonNull)])) = Some (JoinCommand "Ann") /\
  exists ps, JSON_parse (Some (JsonObj [("type", JsonStr "join"); ("screenName", JsonStr "Ann");
                                        ("extra", JsonNull)])) = Some (JObj ps) /\
    forall k v, In (k, v) (obj_props (command_to_js (JoinCommand "Ann"))) -> get (JObj ps) k = v.
Proof.
  assert (H : parseCommand (Some (JsonObj [("type", JsonStr "join");
                 ("screenName", JsonStr "Ann"); ("extra", JsonNull)])) = Some (JoinCommand "Ann"))
    by reflexivity.
  split; [exact H | exact (parseCommand_sound _ _ H)].
Defined.

End ParseProofs.
